(** * RW-MSD: random walk, mean squared displacement, diffusion fit

    A shallow embedding of [RW-MSD.py] and the properties of its three
    numerical functions:

    - [generate_random_walk]: cumulative sums of Gaussian increments;
    - [calculate_msd]: the lag-windowed mean squared displacement;
    - [calculate_diffusion_coefficient]: the log-log line fit.

    Numbers.  The program computes with numpy's float64.  The embedding
    keeps the special values of float64 (the infinities and NaN) and
    takes the finite values to be real numbers with exact arithmetic:
    rounding, overflow and the sign of zero are not modelled.  Every
    statement below about a finite value is therefore a statement about
    the value the program computes up to rounding.

    Exceptions.  A Python exception is a [Raise] result; a numpy warning
    (division by zero in [log], mean of an empty slice, rank warning) is
    not an exception and leaves no trace in the embedding. *)

From Stdlib Require Import Reals Lra Lia ZArith List Bool Psatz.
Import ListNotations.

(** ** Exceptions and results *)

Inductive exn : Type :=
| ValueError
| TypeError
| IndexError
| LinAlgError.

Inductive result (A : Type) : Type :=
| Ok (a : A)
| Raise (e : exn).

Arguments Ok {A} a.
Arguments Raise {A} e.

Definition bind {A B : Type} (m : result A) (k : A -> result B) : result B :=
  match m with
  | Ok a => k a
  | Raise e => Raise e
  end.

Notation "x <- m ;; k" := (bind m (fun x => k))
  (at level 61, m at next level, right associativity).

(** [raises m]: the call ends in an exception, whichever it is. *)
Definition raises {A : Type} (m : result A) : Prop :=
  exists e, m = Raise e.

(** ** The random source

    [np.random.normal] draws from numpy's process-wide generator.  The
    state of that generator is modelled by the sequence of standard
    normal samples it is going to hand out; drawing [n] of them shifts
    the sequence by [n].  A computation that may touch the generator is
    a [Py]: it takes the state and returns a result and the new state. *)

Definition rng : Type := nat -> R.

Definition Py (A : Type) : Type := rng -> result A * rng.

Definition ret {A : Type} (a : A) : Py A := fun g => (Ok a, g).

Definition bindPy {A B : Type} (m : Py A) (k : A -> Py B) : Py B :=
  fun g =>
    match m g with
    | (Ok a, g') => k a g'
    | (Raise e, g') => (Raise e, g')
    end.

Notation "x <~ m ;; k" := (bindPy m (fun x => k))
  (at level 61, m at next level, right associativity).

(** A function that never touches the generator, called from the
    program. *)
Definition lift {A : Type} (m : result A) : Py A := fun g => (m, g).

(** ** The numpy operations the program calls *)

Module np.

Inductive float64 : Type :=
| Fin (r : R)
| PInf
| NInf
| NaN.

Definition fadd (a b : float64) : float64 :=
  match a, b with
  | NaN, _ | _, NaN => NaN
  | Fin r, Fin s => Fin (r + s)
  | PInf, NInf | NInf, PInf => NaN
  | PInf, _ | _, PInf => PInf
  | NInf, _ | _, NInf => NInf
  end.

Definition fsub (a b : float64) : float64 :=
  match a, b with
  | NaN, _ | _, NaN => NaN
  | Fin r, Fin s => Fin (r - s)
  | PInf, PInf | NInf, NInf => NaN
  | PInf, _ | _, NInf => PInf
  | NInf, _ | _, PInf => NInf
  end.

(** [v ** 2]: numpy squares, that is multiplies [v] by itself. *)
Definition fsquare (a : float64) : float64 :=
  match a with
  | Fin r => Fin (r * r)
  | PInf | NInf => PInf
  | NaN => NaN
  end.

Definition fdiv (a b : float64) : float64 :=
  match a, b with
  | NaN, _ | _, NaN => NaN
  | Fin r, Fin s =>
      if Req_dec_T s 0 then
        if Req_dec_T r 0 then NaN
        else if Rlt_dec 0 r then PInf else NInf
      else Fin (r / s)
  | Fin _, _ => Fin 0
  | PInf, Fin s => if Rlt_dec s 0 then NInf else PInf
  | NInf, Fin s => if Rlt_dec s 0 then PInf else NInf
  | _, _ => NaN
  end.

(** [np.log] of one value: minus infinity at zero and NaN below it,
    each with a warning and no exception. *)
Definition flog (a : float64) : float64 :=
  match a with
  | Fin r =>
      if Rlt_dec 0 r then Fin (ln r)
      else if Req_dec_T r 0 then NInf else NaN
  | PInf => PInf
  | NInf => NaN
  | NaN => NaN
  end.

Definition fexp (a : float64) : float64 :=
  match a with
  | Fin r => Fin (Rtrigo_def.exp r)
  | PInf => PInf
  | NInf => Fin 0
  | NaN => NaN
  end.

(** An integer array used where floats are expected. *)
Definition asfloat (l : list Z) : list float64 :=
  map (fun z => Fin (IZR z)) l.

(** Elementwise binary operation on one-dimensional arrays, with
    numpy's broadcasting: equal lengths pair up, a length-one array is
    stretched, anything else is a [ValueError]. *)
Definition broadcast (op : float64 -> float64 -> float64)
  (a b : list float64) : result (list float64) :=
  if (length a =? length b)%nat then
    Ok (map (fun p => op (fst p) (snd p)) (combine a b))
  else
    match a, b with
    | [a0], _ => Ok (map (fun v => op a0 v) b)
    | _, [b0] => Ok (map (fun v => op v b0) a)
    | _, _ => Raise ValueError
    end.

Definition subtract : list float64 -> list float64 -> result (list float64) :=
  broadcast fsub.

Definition add : list float64 -> list float64 -> result (list float64) :=
  broadcast fadd.

Definition square (a : list float64) : list float64 := map fsquare a.

Definition log (a : list float64) : list float64 := map flog a.

Definition sum (a : list float64) : float64 := fold_left fadd a (Fin 0).

(** [np.mean]: the sum over the count; the empty array gives 0/0, NaN. *)
Definition mean (a : list float64) : float64 :=
  fdiv (sum a) (Fin (INR (length a))).

(** [np.arange(start, stop)] on integers. *)
Definition arange (start stop : Z) : list Z :=
  map (fun i => (start + Z.of_nat i)%Z) (seq 0 (Z.to_nat (stop - start))).

Definition zeros_like {A : Type} (a : list A) : list float64 :=
  repeat (Fin 0) (length a).

(** Where a slice bound [i] lands in an array of length [n]: a negative
    bound counts from the end, and both ends clip. *)
Definition clip (n : nat) (i : Z) : nat :=
  if (i <? 0)%Z then Z.to_nat (Z.max 0 (Z.of_nat n + i))
  else Nat.min (Z.to_nat i) n.

(** [a[start:]] *)
Definition slice_from {A : Type} (a : list A) (start : Z) : list A :=
  skipn (clip (length a) start) a.

(** [a[:stop]] *)
Definition slice_to {A : Type} (a : list A) (stop : Z) : list A :=
  firstn (clip (length a) stop) a.

Fixpoint update {A : Type} (a : list A) (i : nat) (v : A) : list A :=
  match a, i with
  | [], _ => []
  | _ :: t, O => v :: t
  | h :: t, S j => h :: update t j v
  end.

(** [a[i]] and [a[i] = v] with an integer index: a negative index counts
    from the end, an index out of range is an [IndexError]. *)
Definition index (n : nat) (i : Z) : result nat :=
  if ((0 <=? i) && (i <? Z.of_nat n))%Z then Ok (Z.to_nat i)
  else if ((- Z.of_nat n <=? i) && (i <? 0))%Z then Ok (Z.to_nat (Z.of_nat n + i))
  else Raise IndexError.

Definition getitem (a : list float64) (i : Z) : result float64 :=
  k <- index (length a) i ;; Ok (nth k a NaN).

Definition setitem (a : list float64) (i : Z) (v : float64) : result (list float64) :=
  k <- index (length a) i ;; Ok (update a k v).

(** [np.cumsum]: the running sums, accumulated left to right. *)
Fixpoint cumsum_from (acc : float64) (a : list float64) : list float64 :=
  match a with
  | [] => []
  | v :: t => fadd acc v :: cumsum_from (fadd acc v) t
  end.

Definition cumsum (a : list float64) : list float64 :=
  match a with
  | [] => []
  | v :: t => v :: cumsum_from v t
  end.

(** The finite values of an array, when all of them are finite. *)
Fixpoint finite (a : list float64) : option (list R) :=
  match a with
  | [] => Some []
  | Fin r :: t =>
      match finite t with
      | Some rs => Some (r :: rs)
      | None => None
      end
  | _ :: _ => None
  end.

Definition Rsum (l : list R) : R := fold_right Rplus 0%R l.

Definition Rdot (a b : list R) : R :=
  Rsum (map (fun p => (fst p * snd p)%R) (combine a b)).

(** The least-squares line through the points [(xs_i, ys_i)], by the
    normal equations. *)
Definition ols_den (xs : list R) : R :=
  (INR (length xs) * Rdot xs xs - Rsum xs * Rsum xs)%R.

Definition ols_slope (xs ys : list R) : R :=
  ((INR (length xs) * Rdot xs ys - Rsum xs * Rsum ys) / ols_den xs)%R.

Definition ols_intercept (xs ys : list R) : R :=
  ((Rsum ys - ols_slope xs ys * Rsum xs) / INR (length xs))%R.

(** [np.polyfit(x, y, 1)]: the coefficients [[slope; intercept]] of the
    least-squares line, highest power first.

    numpy checks that [x] is not empty and that the lengths agree
    ([TypeError]), builds the design matrix with columns [x] and [1],
    divides each column by its Euclidean norm and hands the system to
    LAPACK's least-squares solver.
    - A value of [x] that is not finite, or an [x] that is zero
      throughout (its column is then 0/0), puts a NaN into the matrix:
      the solver does not converge and numpy raises [LinAlgError].
    - A value of [y] that is not finite goes through the solver and
      makes both coefficients NaN; nothing is raised.
    - When all values of [x] are equal to some [c <> 0] the matrix has
      rank one; the solver returns the solution of least norm of the
      scaled system (with a rank warning), which is slope
      [mean y / (2 c)] and intercept [mean y / 2].
    - Otherwise the solution is the unique least-squares line.

    The coefficients given here are the exact real solution.  numpy's
    solver works in float64 and rounds, so the coefficients it returns
    agree with these up to rounding only, and no statement below is
    about their last bits. *)
Definition polyfit1 (x y : list float64) : result (list float64) :=
  match x with
  | [] => Raise TypeError
  | _ :: _ =>
      if negb (length x =? length y)%nat then Raise TypeError
      else
        match finite x with
        | None => Raise LinAlgError
        | Some xs =>
            if Req_dec_T (Rdot xs xs) 0 then Raise LinAlgError
            else
              match finite y with
              | None => Ok [NaN; NaN]
              | Some ys =>
                  if Req_dec_T (ols_den xs) 0 then
                    let ybar := (Rsum ys / INR (length ys))%R in
                    Ok [Fin (ybar / (2 * hd 0%R xs)); Fin (ybar / 2)]
                  else
                    Ok [Fin (ols_slope xs ys); Fin (ols_intercept xs ys)]
              end
        end
  end.

Definition fmul (a b : float64) : float64 :=
  match a, b with
  | NaN, _ | _, NaN => NaN
  | Fin r, Fin s => Fin (r * s)
  | Fin r, PInf | PInf, Fin r =>
      if Req_dec_T r 0 then NaN else if Rlt_dec 0 r then PInf else NInf
  | Fin r, NInf | NInf, Fin r =>
      if Req_dec_T r 0 then NaN else if Rlt_dec 0 r then NInf else PInf
  | PInf, PInf | NInf, NInf => PInf
  | PInf, NInf | NInf, PInf => NInf
  end.

(** [np.exp] on an array. *)
Definition exp_array (a : list float64) : list float64 := map fexp a.

(** [np.polyval(p, x)] on an array [x]: Horner's rule, starting from
    [y = zeros_like(x)] and doing [y = y * x + pv] for each coefficient
    [pv] of [p], highest power first. *)
Definition polyval (p x : list float64) : list float64 :=
  fold_left
    (fun y pv => map (fun t => fadd (fmul (fst t) (snd t)) pv) (combine y x))
    p (zeros_like x).

Module random.

(** [np.random.normal(loc, scale, size=size)]: [size] samples, each
    [loc + scale * z] for the next standard normal sample [z].  A
    negative [size] or [scale] is a [ValueError], raised before anything
    is drawn. *)
Definition normal (loc scale : R) (size : Z) : Py (list float64) :=
  fun g =>
    if (size <? 0)%Z then (Raise ValueError, g)
    else if Rlt_dec scale 0 then (Raise ValueError, g)
    else
      let n := Z.to_nat size in
      (Ok (map (fun i => Fin (loc + scale * g i)%R) (seq 0 n)),
       fun i => g (n + i)%nat).

End random.

End np.

Import np.

(** ** The program *)

(** [generate_random_walk(steps=1000)] *)
Definition generate_random_walk (steps : option Z)
  : Py (list float64 * list float64) :=
  let steps := match steps with Some s => s | None => 1000%Z end in
  x_steps <~ np.random.normal 0 1 steps ;;
  y_steps <~ np.random.normal 0 1 steps ;;
  let x := np.cumsum x_steps in
  let y := np.cumsum y_steps in
  ret (x, y).

(** The body of the loop of [calculate_msd] for one [lag]: the value
    stored into [msd[lag - 1]]. *)
Definition msd_at (x y : list float64) (lag : Z) : result float64 :=
  dx <- np.subtract (np.slice_from x lag) (np.slice_to x (- lag)) ;;
  dy <- np.subtract (np.slice_from y lag) (np.slice_to y (- lag)) ;;
  sq <- np.add (np.square dx) (np.square dy) ;;
  Ok (np.mean sq).

(** [for lag in lags: ... msd[lag - 1] = ...], on the array [msd]
    updated in place. *)
Fixpoint msd_loop (x y : list float64) (lags : list Z) (msd : list float64)
  : result (list float64) :=
  match lags with
  | [] => Ok msd
  | lag :: rest =>
      v <- msd_at x y lag ;;
      msd' <- np.setitem msd (lag - 1) v ;;
      msd_loop x y rest msd'
  end.

(** [if max_lag is None: max_lag = len(x) // 2] *)
Definition resolve_max_lag (x : list float64) (max_lag : option Z) : Z :=
  match max_lag with
  | None => (Z.of_nat (length x) / 2)%Z
  | Some m => m
  end.

(** [calculate_msd(x, y, max_lag=None)] *)
Definition calculate_msd (x y : list float64) (max_lag : option Z)
  : result (list Z * list float64) :=
  let max_lag := resolve_max_lag x max_lag in
  let lags := np.arange 1 (max_lag + 1) in
  let msd := np.zeros_like lags in
  msd <- msd_loop x y lags msd ;;
  Ok (lags, msd).

(** [calculate_diffusion_coefficient(lags, msd)]; the result is
    [(diffusion_coefficient, slope, coeffs)]. *)
Definition calculate_diffusion_coefficient (lags : list Z) (msd : list float64)
  : result (float64 * float64 * list float64) :=
  let log_lags := np.log (np.asfloat lags) in
  let log_msd := np.log msd in
  coeffs <- np.polyfit1 log_lags log_msd ;;
  slope <- np.getitem coeffs 0 ;;
  intercept <- np.getitem coeffs 1 ;;
  let diffusion_coefficient := np.fdiv (np.fexp intercept) (Fin 4) in
  Ok (diffusion_coefficient, slope, coeffs).

(** The script run as a program with the step count [steps]: the walk,
    the start and end points read for the trajectory plot ([x[0]],
    [y[0]], [x[-1]], [y[-1]]), the MSD with [max_lag] omitted, and the
    fit.  The calls to matplotlib and the two [print]s are left out;
    the result is what [calculate_diffusion_coefficient] returns. *)
Definition main (steps : Z) : Py (float64 * float64 * list float64) :=
  xy <~ generate_random_walk (Some steps) ;;
  let x := fst xy in
  let y := snd xy in
  _ <~ lift (x0 <- np.getitem x 0 ;; y0 <- np.getitem y 0 ;; Ok (x0, y0)) ;;
  _ <~ lift (xn <- np.getitem x (-1) ;; yn <- np.getitem y (-1) ;;
             Ok (xn, yn)) ;;
  lm <~ lift (calculate_msd x y None) ;;
  lift (calculate_diffusion_coefficient (fst lm) (snd lm)).

(** [plot_msd_loglog(lags, msd, coeffs)] draws two curves over [lags]:
    the MSD values themselves, and the fitted line
    [np.exp(np.polyval(coeffs, np.log(lags)))].  The drawing is left to
    matplotlib; [fitted_line] is the array of ordinates the function
    computes for the second curve. *)
Definition fitted_line (lags : list Z) (coeffs : list float64) : list float64 :=
  np.exp_array (np.polyval coeffs (np.log (np.asfloat lags))).

(** ** Arrays as shared, mutable objects

    A numpy array is an object: the caller and the function hold the
    same array, and [msd[lag - 1] = ...] writes into it in place.  The
    [world] holds the random source and the store of the float64 arrays
    alive in the process; a [ref] names one of them.  A computation in
    [St] reads and writes the world.

    The coordinate arrays and the MSD array are arrays of the store.
    The slices, differences, squares and logarithms are fresh arrays
    that the functions use once and never write into, and so are the
    integer array [lags] and the array [coeffs]: these are kept as
    values. *)

Definition ref : Type := nat.

Record world : Type := World { gen : rng; heap : list (list float64) }.

Definition St (A : Type) : Type := world -> result A * world.

Definition retSt {A : Type} (a : A) : St A := fun w => (Ok a, w).

Definition bindSt {A B : Type} (m : St A) (k : A -> St B) : St B :=
  fun w =>
    match m w with
    | (Ok a, w') => k a w'
    | (Raise e, w') => (Raise e, w')
    end.

Notation "x <-- m ;; k" := (bindSt m (fun x => k))
  (at level 61, m at next level, right associativity).

Definition liftSt {A : Type} (m : result A) : St A := fun w => (m, w).

(** The array a reference names, as it is now. *)
Definition contents (w : world) (r : ref) : list float64 :=
  nth r (heap w) [].

(** A new array enters the store. *)
Definition new_array (a : list float64) : St ref :=
  fun w => (Ok (length (heap w)), World (gen w) (heap w ++ [a])).

Definition read_array (r : ref) : St (list float64) :=
  fun w => (Ok (contents w r), w).

(** [a[i] = v] on the array [r] of the store. *)
Definition setitem_array (r : ref) (i : Z) (v : float64) : St unit :=
  fun w =>
    match np.setitem (contents w r) i v with
    | Ok a => (Ok tt, World (gen w) (np.update (heap w) r a))
    | Raise e => (Raise e, w)
    end.

(** The loop of [calculate_msd] on the arrays [x], [y] and [msd] of the
    store: each turn reads [x] and [y] as they are then and writes one
    element of [msd]. *)
Fixpoint msd_loop_st (x y : ref) (lags : list Z) (msd : ref) : St unit :=
  match lags with
  | [] => retSt tt
  | lag :: rest =>
      xs <-- read_array x ;;
      ys <-- read_array y ;;
      v <-- liftSt (msd_at xs ys lag) ;;
      _ <-- setitem_array msd (lag - 1) v ;;
      msd_loop_st x y rest msd
  end.

(** [calculate_msd(x, y, max_lag)] called on two arrays of the store;
    it returns the lags and the array [msd] it has made and filled. *)
Definition calculate_msd_st (x y : ref) (max_lag : option Z)
  : St (list Z * ref) :=
  xs <-- read_array x ;;
  let max_lag := resolve_max_lag xs max_lag in
  let lags := np.arange 1 (max_lag + 1) in
  msd <-- new_array (np.zeros_like lags) ;;
  _ <-- msd_loop_st x y lags msd ;;
  retSt (lags, msd).

(** [calculate_diffusion_coefficient(lags, msd)] called on an MSD array
    of the store. *)
Definition calculate_diffusion_coefficient_st (lags : list Z) (msd : ref)
  : St (float64 * float64 * list float64) :=
  ms <-- read_array msd ;;
  liftSt (calculate_diffusion_coefficient lags ms).

(** What a call of [calculate_msd_st] has produced, read in the world
    [w]: the lags and the values of the MSD array, or the exception. *)
Definition msd_outcome (w : world) (r : result (list Z * ref))
  : result (list Z * list float64) :=
  match r with
  | Ok (lags, msd) => Ok (lags, contents w msd)
  | Raise e => Raise e
  end.

(** ** The quantities the specification names *)

(** The lag series [[1; 2; ...; m]]. *)
Definition lag_series (m : nat) : list Z := map Z.of_nat (seq 1 m).

(** The squared displacement between points [i] and [i + L] of the
    trajectory, in the arithmetic of the program. *)
Definition sq_displacement (x y : list float64) (L i : nat) : float64 :=
  fadd (fsquare (fsub (nth (i + L) x NaN) (nth i x NaN)))
       (fsquare (fsub (nth (i + L) y NaN) (nth i y NaN))).

(** The mean of the squared displacements at lag [L] over the starting
    indices [0 .. N - L - 1]. *)
Definition window_mean (x y : list float64) (L : nat) : float64 :=
  np.mean (map (sq_displacement x y L) (seq 0 (length x - L))).

(** The same mean for a trajectory of finite points, as a real number. *)
Definition sq_displacement_R (xs ys : list R) (L i : nat) : R :=
  ((nth (i + L) xs 0 - nth i xs 0) * (nth (i + L) xs 0 - nth i xs 0)
   + (nth (i + L) ys 0 - nth i ys 0) * (nth (i + L) ys 0 - nth i ys 0))%R.

Definition window_mean_R (xs ys : list R) (L : nat) : R :=
  (Rsum (map (sq_displacement_R xs ys L) (seq 0 (length xs - L)))
   / INR (length xs - L))%R.

(** A value that is not negative: a finite value [>= 0], plus infinity,
    or NaN (which compares with nothing). *)
Definition not_negative (v : float64) : Prop :=
  match v with
  | Fin r => (0 <= r)%R
  | PInf => True
  | NInf => False
  | NaN => True
  end.

(** The coordinates of a walk at constant velocity: [a + v * i] at step
    [i], for [n] steps. *)
Definition ballistic (a v : R) (n : nat) : list R :=
  map (fun i => (a + v * INR i)%R) (seq 0 n).

(** The sum of the squared residuals of the line [a * x + b] on the
    points [(xs_i, ys_i)]. *)
Definition sse (xs ys : list R) (a b : R) : R :=
  Rsum (map (fun p => ((snd p - (a * fst p + b)) * (snd p - (a * fst p + b)))%R)
            (combine xs ys)).

(** [(a, b)] is a least-squares line for the points. *)
Definition least_squares (xs ys : list R) (a b : R) : Prop :=
  forall a' b', (sse xs ys a b <= sse xs ys a' b')%R.

(** * Properties *)

(** ** Lists, slices and in-place update *)

Section ListFacts.

Variable A : Type.

Lemma nth_map_seq (f : nat -> A) (a n i : nat) (d : A) :
  i < n -> nth i (map f (seq a n)) d = f (a + i).
Proof.
  intros Hi.
  rewrite nth_indep with (d' := f 0) by (now rewrite length_map, length_seq).
  now rewrite map_nth, seq_nth.
Qed.

Lemma skipn_as_map (l : list A) (k : nat) (d : A) :
  skipn k l = map (fun i => nth (i + k) l d) (seq 0 (length l - k)).
Proof.
  apply nth_ext with (d := d) (d' := d).
  - now rewrite length_skipn, length_map, length_seq.
  - intros i Hi. rewrite length_skipn in Hi.
    rewrite nth_skipn, nth_map_seq by assumption.
    f_equal. lia.
Qed.

Lemma firstn_as_map (l : list A) (k : nat) (d : A) :
  k <= length l ->
  firstn k l = map (fun i => nth i l d) (seq 0 k).
Proof.
  intros Hk. apply nth_ext with (d := d) (d' := d).
  - rewrite length_firstn, length_map, length_seq. lia.
  - intros i Hi. rewrite length_firstn in Hi.
    assert (Hik : i < k) by lia.
    rewrite nth_firstn, nth_map_seq by assumption.
    apply Nat.ltb_lt in Hik as ->. reflexivity.
Qed.

Lemma length_update (l : list A) (i : nat) (v : A) :
  length (np.update l i v) = length l.
Proof.
  revert i. induction l as [|h t IH]; intros [|j]; simpl; auto.
Qed.

Lemma nth_update (l : list A) (i j : nat) (v d : A) :
  i < length l ->
  nth j (np.update l i v) d = if j =? i then v else nth j l d.
Proof.
  revert i j. induction l as [|h t IH]; intros i j Hi; simpl in Hi.
  - lia.
  - destruct i as [|i], j as [|j]; simpl; auto.
    apply IH. lia.
Qed.

End ListFacts.

Lemma zip_maps (B : Type) (op : float64 -> float64 -> float64)
  (f g : B -> float64) (s : list B) :
  map (fun p => op (fst p) (snd p)) (combine (map f s) (map g s))
  = map (fun i => op (f i) (g i)) s.
Proof.
  induction s as [|b s IH]; simpl; [reflexivity | now rewrite IH].
Qed.

Lemma broadcast_same (op : float64 -> float64 -> float64) (a b : list float64) :
  length a = length b ->
  np.broadcast op a b = Ok (map (fun p => op (fst p) (snd p)) (combine a b)).
Proof.
  intros H. unfold np.broadcast. now rewrite H, Nat.eqb_refl.
Qed.

Lemma broadcast_maps (B : Type) (op : float64 -> float64 -> float64)
  (f g : B -> float64) (s : list B) :
  np.broadcast op (map f s) (map g s) = Ok (map (fun i => op (f i) (g i)) s).
Proof.
  rewrite broadcast_same by now rewrite !length_map.
  now rewrite zip_maps.
Qed.

(** For a lag [L >= 1], [a[L:]] holds the elements [a[i + L]] and
    [a[:-L]] the elements [a[i]], for [i] in [0 .. len(a) - L - 1]. *)
Lemma slice_from_lag (a : list float64) (L : nat) :
  np.slice_from a (Z.of_nat L)
  = map (fun i => nth (i + L) a NaN) (seq 0 (length a - L)).
Proof.
  unfold np.slice_from, np.clip.
  replace (Z.of_nat L <? 0)%Z with false by (symmetry; apply Z.ltb_ge; lia).
  rewrite Nat2Z.id.
  destruct (Nat.le_gt_cases L (length a)) as [Hle | Hgt].
  - rewrite Nat.min_l by assumption. apply skipn_as_map.
  - rewrite Nat.min_r by lia. rewrite skipn_all.
    replace (length a - L) with 0 by lia. reflexivity.
Qed.

Lemma slice_to_lag (a : list float64) (L : nat) :
  1 <= L ->
  np.slice_to a (- Z.of_nat L)
  = map (fun i => nth i a NaN) (seq 0 (length a - L)).
Proof.
  intros HL. unfold np.slice_to, np.clip.
  replace (- Z.of_nat L <? 0)%Z with true by (symmetry; apply Z.ltb_lt; lia).
  replace (Z.to_nat (Z.max 0 (Z.of_nat (length a) + - Z.of_nat L)))
    with (length a - L) by lia.
  apply firstn_as_map. lia.
Qed.

(** ** The estimator *)

(** One turn of the loop: with coordinate arrays of one length the
    slices pair up, nothing is raised, and the value stored is the
    window mean of the lag. *)
Lemma msd_at_window (x y : list float64) (L : nat) :
  length x = length y ->
  1 <= L ->
  msd_at x y (Z.of_nat L) = Ok (window_mean x y L).
Proof.
  intros Hxy HL. unfold msd_at, np.subtract, np.add, np.square.
  rewrite !slice_from_lag, !slice_to_lag by assumption.
  rewrite <- Hxy.
  rewrite !broadcast_maps. simpl.
  rewrite !map_map, broadcast_maps. simpl.
  reflexivity.
Qed.

Lemma index_in_range (n i : nat) :
  i < n -> np.index n (Z.of_nat i) = Ok i.
Proof.
  intros Hi. unfold np.index.
  replace (0 <=? Z.of_nat i)%Z with true by (symmetry; apply Z.leb_le; lia).
  replace (Z.of_nat i <? Z.of_nat n)%Z with true by (symmetry; apply Z.ltb_lt; lia).
  simpl. now rewrite Nat2Z.id.
Qed.

(** The loop over the lags [a + 1 .. a + k]: it raises nothing, keeps
    the length of [msd] and overwrites exactly the positions
    [a .. a + k - 1], position [i] with the window mean of lag [i + 1]. *)
Lemma msd_loop_spec (x y : list float64) :
  length x = length y ->
  forall (k a : nat) (msd : list float64),
    a + k <= length msd ->
    exists msd',
      msd_loop x y (map Z.of_nat (seq (S a) k)) msd = Ok msd'
      /\ length msd' = length msd
      /\ forall i d,
           nth i msd' d
           = if (a <=? i) && (i <? a + k) then window_mean x y (S i)
             else nth i msd d.
Proof.
  intros Hxy. induction k as [|k IH]; intros a msd Hlen.
  - exists msd. simpl. repeat split; auto.
    intros i d.
    destruct (a <=? i) eqn:E1, (i <? a + 0) eqn:E2; simpl; auto.
    apply Nat.leb_le in E1. apply Nat.ltb_lt in E2. lia.
  - cbn [seq map msd_loop].
    rewrite msd_at_window by (assumption || lia). cbn [bind].
    unfold np.setitem.
    replace (Z.of_nat (S a) - 1)%Z with (Z.of_nat a) by lia.
    rewrite index_in_range by lia. cbn [bind].
    destruct (IH (S a) (np.update msd a (window_mean x y (S a))))
      as (msd' & Hrun & Hl & Hnth).
    { rewrite length_update. lia. }
    exists msd'. split; [exact Hrun|]. split.
    { now rewrite Hl, length_update. }
    intros i d. rewrite Hnth, nth_update by lia.
    destruct (Nat.eq_dec i a) as [-> | Hne].
    + rewrite Nat.eqb_refl.
      replace (S a <=? a) with false by (symmetry; apply Nat.leb_gt; lia).
      replace (a <=? a) with true by (symmetry; apply Nat.leb_le; lia).
      replace (a <? a + S k) with true by (symmetry; apply Nat.ltb_lt; lia).
      reflexivity.
    + replace (i =? a) with false by (symmetry; apply Nat.eqb_neq; lia).
      destruct (S a <=? i) eqn:E1, (i <? S a + k) eqn:E2,
               (a <=? i) eqn:E3, (i <? a + S k) eqn:E4; simpl; auto;
        repeat match goal with
        | H : (_ <=? _) = true |- _ => apply Nat.leb_le in H
        | H : (_ <=? _) = false |- _ => apply Nat.leb_gt in H
        | H : (_ <? _) = true |- _ => apply Nat.ltb_lt in H
        | H : (_ <? _) = false |- _ => apply Nat.ltb_ge in H
        end; lia.
Qed.

Lemma arange_from_1 (m : Z) :
  np.arange 1 (m + 1) = lag_series (Z.to_nat m).
Proof.
  unfold np.arange, lag_series.
  replace (m + 1 - 1)%Z with m by lia.
  rewrite <- seq_shift, map_map.
  apply map_ext. intros i. lia.
Qed.

(** What [calculate_msd] returns on coordinate arrays of one length,
    whatever [max_lag] is: no exception, the lags [1 .. max_lag] (none
    when [max_lag < 1]) and, for each of them, its window mean. *)
Lemma calculate_msd_eq (x y : list float64) (max_lag : option Z) :
  length x = length y ->
  let m := Z.to_nat (resolve_max_lag x max_lag) in
  calculate_msd x y max_lag
  = Ok (lag_series m, map (window_mean x y) (seq 1 m)).
Proof.
  intros Hxy m. unfold calculate_msd.
  rewrite arange_from_1. fold m.
  destruct (msd_loop_spec x y Hxy m 0 (np.zeros_like (lag_series m)))
    as (msd' & Hrun & Hl & Hnth).
  { unfold np.zeros_like, lag_series.
    rewrite repeat_length, length_map, length_seq. lia. }
  unfold lag_series at 1 in Hrun. fold (lag_series m) in Hrun.
  rewrite Hrun. cbn [bind]. do 2 f_equal.
  apply nth_ext with (d := NaN) (d' := NaN).
  - rewrite Hl. unfold np.zeros_like, lag_series.
    now rewrite repeat_length, !length_map, !length_seq.
  - intros i Hi. rewrite Hl in Hi.
    unfold np.zeros_like, lag_series in Hi.
    rewrite repeat_length, length_map, length_seq in Hi.
    rewrite Hnth.
    replace (0 <=? i) with true by (symmetry; apply Nat.leb_le; lia).
    replace (i <? 0 + m) with true by (symmetry; apply Nat.ltb_lt; lia).
    simpl. now rewrite nth_map_seq by assumption.
Qed.

(** ** Finite values: the arithmetic of the program is that of the reals *)

Lemma fold_fadd_fin (rs : list R) (a : R) :
  fold_left fadd (map Fin rs) (Fin a) = Fin (a + Rsum rs).
Proof.
  revert a. induction rs as [|r rs IH]; intros a; simpl.
  - f_equal. lra.
  - rewrite IH. f_equal. unfold Rsum. lra.
Qed.

Lemma sum_fin (rs : list R) : np.sum (map Fin rs) = Fin (Rsum rs).
Proof.
  unfold np.sum. rewrite fold_fadd_fin. f_equal. lra.
Qed.

Lemma fdiv_fin (r s : R) : s <> 0%R -> fdiv (Fin r) (Fin s) = Fin (r / s).
Proof.
  intros Hs. unfold fdiv. destruct (Req_dec_T s 0); [contradiction | reflexivity].
Qed.

Lemma mean_fin (rs : list R) :
  rs <> [] ->
  np.mean (map Fin rs) = Fin (Rsum rs / INR (length rs)).
Proof.
  intros Hne. unfold np.mean. rewrite sum_fin, length_map.
  apply fdiv_fin. apply not_0_INR.
  destruct rs; [contradiction | discriminate].
Qed.

(** The mean of the empty array is NaN: numpy divides 0 by 0. *)
Lemma mean_nil : np.mean [] = NaN.
Proof.
  unfold np.mean, np.sum, fdiv. simpl.
  destruct (Req_dec_T 0 0) as [_ | H]; [reflexivity | now contradiction H].
Qed.

Lemma nth_fin (rs : list R) (i : nat) :
  i < length rs -> nth i (map Fin rs) NaN = Fin (nth i rs 0%R).
Proof.
  intros Hi.
  rewrite nth_indep with (d' := Fin 0) by (now rewrite length_map).
  apply map_nth.
Qed.

Lemma sq_displacement_fin (xs ys : list R) (L i : nat) :
  length xs = length ys ->
  i + L < length xs ->
  sq_displacement (map Fin xs) (map Fin ys) L i
  = Fin (sq_displacement_R xs ys L i).
Proof.
  intros Hxy Hi. unfold sq_displacement, sq_displacement_R.
  rewrite !nth_fin by lia. reflexivity.
Qed.

(** Inside the trajectory the window mean is the real mean of the
    squared displacements. *)
Lemma window_mean_fin (xs ys : list R) (L : nat) :
  length xs = length ys ->
  L < length xs ->
  window_mean (map Fin xs) (map Fin ys) L = Fin (window_mean_R xs ys L).
Proof.
  intros Hxy HL. unfold window_mean, window_mean_R.
  rewrite length_map.
  rewrite map_ext_in
    with (g := fun i => Fin (sq_displacement_R xs ys L i)).
  - rewrite <- map_map, mean_fin.
    + now rewrite length_map, length_seq.
    + destruct (length xs - L) eqn:E; [lia | discriminate].
  - intros i Hi. apply in_seq in Hi.
    apply sq_displacement_fin; [assumption | lia].
Qed.

(** At a lag that reaches the length of the trajectory the window is
    empty and its mean is NaN. *)
Lemma window_mean_empty (x y : list float64) (L : nat) :
  length x <= L -> window_mean x y L = NaN.
Proof.
  intros HL. unfold window_mean.
  replace (length x - L) with 0 by lia. apply mean_nil.
Qed.

Lemma length_lag_series (m : nat) : length (lag_series m) = m.
Proof. unfold lag_series. now rewrite length_map, length_seq. Qed.

(** ** The claims about [calculate_msd] *)

(** C1.  For coordinate arrays of one length [N] and a lag [L] with
    [1 <= L <= max_lag < N] ([max_lag] as resolved), [calculate_msd]
    returns, at position [L - 1] of the MSD array, the unweighted mean
    over the starting indices [i = 0 .. N - L - 1] of
    [(x[i+L] - x[i])^2 + (y[i+L] - y[i])^2]: in the arithmetic of the
    program for any float values, and as the real mean when the
    coordinates are finite.  On the trajectory
    [(0,0), (1,0), (2,0), (3,0)] with [max_lag = 2] the lags are
    [[1; 2]] and the MSD values [[1; 4]]. *)
Theorem C1_msd_window_mean :
  (forall (x y : list float64) (max_lag : option Z) (L : nat),
      length x = length y ->
      (1 <= Z.of_nat L <= resolve_max_lag x max_lag)%Z ->
      (resolve_max_lag x max_lag < Z.of_nat (length x))%Z ->
      exists lags msd,
        calculate_msd x y max_lag = Ok (lags, msd)
        /\ nth (L - 1) msd NaN = window_mean x y L)
  /\ (forall (xs ys : list R) (max_lag : option Z) (L : nat),
      length xs = length ys ->
      (1 <= Z.of_nat L <= resolve_max_lag (map Fin xs) max_lag)%Z ->
      (resolve_max_lag (map Fin xs) max_lag < Z.of_nat (length xs))%Z ->
      exists lags msd,
        calculate_msd (map Fin xs) (map Fin ys) max_lag = Ok (lags, msd)
        /\ nth (L - 1) msd NaN = Fin (window_mean_R xs ys L))
  /\ calculate_msd [Fin 0; Fin 1; Fin 2; Fin 3] [Fin 0; Fin 0; Fin 0; Fin 0]
                   (Some 2%Z)
     = Ok ([1; 2]%Z, [Fin 1; Fin 4]).
Proof.
  assert (General :
    forall (x y : list float64) (max_lag : option Z) (L : nat),
      length x = length y ->
      (1 <= Z.of_nat L <= resolve_max_lag x max_lag)%Z ->
      exists lags msd,
        calculate_msd x y max_lag = Ok (lags, msd)
        /\ nth (L - 1) msd NaN = window_mean x y L).
  { intros x y max_lag L Hxy HL.
    rewrite calculate_msd_eq by assumption.
    do 2 eexists. split; [reflexivity|].
    rewrite nth_map_seq by lia.
    f_equal. lia. }
  split; [|split].
  - intros x y max_lag L Hxy HL _. now apply General.
  - intros xs ys max_lag L Hxy HL HN.
    destruct (General (map Fin xs) (map Fin ys) max_lag L)
      as (lags & msd & Hrun & Hnth).
    { now rewrite !length_map. }
    { assumption. }
    exists lags, msd. split; [exact Hrun|].
    rewrite Hnth. apply window_mean_fin; [assumption | lia].
  - rewrite calculate_msd_eq by reflexivity.
    change (Z.to_nat (resolve_max_lag _ (Some 2%Z))) with 2.
    change (lag_series 2) with [1; 2]%Z.
    cbn [seq map].
    change [Fin 0; Fin 1; Fin 2; Fin 3] with (map Fin [0; 1; 2; 3]%R).
    change [Fin 0; Fin 0; Fin 0; Fin 0] with (map Fin [0; 0; 0; 0]%R).
    rewrite !window_mean_fin by (simpl; lia).
    unfold window_mean_R, sq_displacement_R, Rsum. simpl.
    match goal with
    | |- Ok (_, [Fin ?a; Fin ?b]) = _ =>
        replace a with 1%R by field; replace b with 4%R by field
    end.
    reflexivity.
Qed.

(** The first claim at scenario A, lag 2. *)
Lemma C1_witness :
  exists lags msd,
    calculate_msd (map Fin [0; 1; 2; 3]%R) (map Fin [0; 0; 0; 0]%R) (Some 2%Z)
    = Ok (lags, msd)
    /\ nth (2 - 1) msd NaN
       = Fin (window_mean_R [0; 1; 2; 3]%R [0; 0; 0; 0]%R 2).
Proof.
  apply (proj1 (proj2 C1_msd_window_mean)); simpl; lia.
Defined.

(** C5.  For coordinate arrays of one length [N] and a resolved
    [max_lag] with [1 <= max_lag < N], [calculate_msd] returns the lag
    series [[1; 2; ...; max_lag]] and an MSD series of the same length
    [max_lag]; and an omitted [max_lag] is resolved to [floor(N / 2)]. *)
Theorem C5_series_shape :
  (forall (x y : list float64) (max_lag : option Z),
      length x = length y ->
      (1 <= resolve_max_lag x max_lag < Z.of_nat (length x))%Z ->
      let m := Z.to_nat (resolve_max_lag x max_lag) in
      exists lags msd,
        calculate_msd x y max_lag = Ok (lags, msd)
        /\ lags = lag_series m
        /\ (forall i, i < m -> nth i lags 0%Z = Z.of_nat (i + 1))
        /\ length lags = m
        /\ length msd = m)
  /\ (forall (x y : list float64),
      resolve_max_lag x None = Z.of_nat (length x / 2)
      /\ calculate_msd x y None
         = calculate_msd x y (Some (Z.of_nat (length x / 2)))).
Proof.
  split.
  - intros x y max_lag Hxy Hm m.
    rewrite calculate_msd_eq by assumption. fold m.
    do 2 eexists. split; [reflexivity|].
    split; [reflexivity|]. split; [|split].
    + intros i Hi. unfold lag_series.
      rewrite nth_indep with (d' := Z.of_nat 0)
        by (now rewrite length_map, length_seq).
      rewrite map_nth, seq_nth by assumption. f_equal. lia.
    + apply length_lag_series.
    + now rewrite length_map, length_seq.
  - intros x y.
    assert (E : resolve_max_lag x None = Z.of_nat (length x / 2)).
    { unfold resolve_max_lag. now rewrite Nat2Z.inj_div. }
    split; [exact E|].
    unfold calculate_msd. rewrite E. reflexivity.
Qed.

(** The shape of the series for a trajectory of four points, [max_lag]
    omitted. *)
Lemma C5_witness :
  exists lags msd,
    calculate_msd [Fin 0; Fin 1; Fin 2; Fin 3] [Fin 0; Fin 0; Fin 0; Fin 0] None
    = Ok (lags, msd)
    /\ lags = lag_series 2
    /\ (forall i, i < 2 -> nth i lags 0%Z = Z.of_nat (i + 1))
    /\ length lags = 2
    /\ length msd = 2.
Proof.
  apply (proj1 C5_series_shape
           [Fin 0; Fin 1; Fin 2; Fin 3] [Fin 0; Fin 0; Fin 0; Fin 0] None).
  - reflexivity.
  - change (resolve_max_lag _ None) with 2%Z. simpl. lia.
Defined.

(** C2, as the specification states it, does not hold: the estimator
    validates nothing.  A trajectory of one point with [max_lag]
    omitted (resolved to 0) yields the empty series, and a trajectory
    of two points with [max_lag = 2 = N] yields the lags [[1; 2]] with
    NaN at lag 2; neither call raises. *)
Lemma C2_counterexample :
  (resolve_max_lag [Fin 0] None < 1)%Z
  /\ calculate_msd [Fin 0] [Fin 0] None = Ok ([], [])
  /\ ~ raises (calculate_msd [Fin 0] [Fin 0] None)
  /\ (resolve_max_lag [Fin 0; Fin 1] (Some 2%Z)
      >= Z.of_nat (length [Fin 0; Fin 1]))%Z
  /\ calculate_msd [Fin 0; Fin 1] [Fin 0; Fin 0] (Some 2%Z)
     = Ok ([1; 2]%Z, [Fin 1; NaN])
  /\ ~ raises (calculate_msd [Fin 0; Fin 1] [Fin 0; Fin 0] (Some 2%Z)).
Proof.
  assert (E1 : calculate_msd [Fin 0] [Fin 0] None = Ok ([], [])).
  { now rewrite calculate_msd_eq. }
  assert (E2 : calculate_msd [Fin 0; Fin 1] [Fin 0; Fin 0] (Some 2%Z)
               = Ok ([1; 2]%Z, [Fin 1; NaN])).
  { rewrite calculate_msd_eq by reflexivity.
    change (Z.to_nat (resolve_max_lag _ (Some 2%Z))) with 2.
    change (lag_series 2) with [1; 2]%Z.
    cbn [seq map].
    rewrite (window_mean_empty _ _ 2) by (simpl; lia).
    change [Fin 0; Fin 1] with (map Fin [0; 1]%R).
    change [Fin 0; Fin 0] with (map Fin [0; 0]%R).
    rewrite window_mean_fin by (simpl; lia).
    unfold window_mean_R, sq_displacement_R, Rsum. simpl.
    match goal with
    | |- Ok (_, [Fin ?a; _]) = _ => replace a with 1%R by field
    end.
    reflexivity. }
  refine (conj _ (conj E1 (conj _ (conj _ (conj E2 _))))).
  - change (resolve_max_lag _ None) with 0%Z. lia.
  - intros [e He]. rewrite E1 in He. discriminate.
  - simpl. lia.
  - intros [e He]. rewrite E2 in He. discriminate.
Qed.

(** C2, amended.  On coordinate arrays of one length [N],
    [calculate_msd] raises nothing, whatever [max_lag] is.  A resolved
    [max_lag < 1] gives the empty lag and MSD series.  A resolved
    [max_lag >= 1] gives the lags [[1; ...; max_lag]] and as many MSD
    values, and the value of every lag [L >= N] is NaN, the mean of an
    empty window. *)
Theorem C2_msd_never_raises :
  forall (x y : list float64) (max_lag : option Z),
    length x = length y ->
    let m := resolve_max_lag x max_lag in
    ~ raises (calculate_msd x y max_lag)
    /\ ((m < 1)%Z -> calculate_msd x y max_lag = Ok ([], []))
    /\ ((1 <= m)%Z ->
        exists msd,
          calculate_msd x y max_lag = Ok (lag_series (Z.to_nat m), msd)
          /\ length msd = Z.to_nat m
          /\ forall L,
               1 <= L -> length x <= L <= Z.to_nat m ->
               nth (L - 1) msd (Fin 0) = NaN).
Proof.
  intros x y max_lag Hxy m.
  pose proof (calculate_msd_eq x y max_lag Hxy) as E.
  cbv zeta in E. fold m in E.
  split; [|split].
  - intros [e He]. rewrite E in He. discriminate.
  - intros Hm. rewrite E.
    replace (Z.to_nat m) with 0 by lia. reflexivity.
  - intros Hm. eexists. split; [exact E|]. split.
    + now rewrite length_map, length_seq.
    + intros L HL1 HL. rewrite nth_map_seq by lia.
      apply window_mean_empty. lia.
Qed.

(** The amended claim on a trajectory of two points with [max_lag = 2]. *)
Lemma C2_witness :
  ~ raises (calculate_msd [Fin 0; Fin 1] [Fin 0; Fin 0] (Some 2%Z))
  /\ ((2 < 1)%Z ->
      calculate_msd [Fin 0; Fin 1] [Fin 0; Fin 0] (Some 2%Z) = Ok ([], []))
  /\ ((1 <= 2)%Z ->
      exists msd,
        calculate_msd [Fin 0; Fin 1] [Fin 0; Fin 0] (Some 2%Z)
        = Ok (lag_series 2, msd)
        /\ length msd = 2
        /\ forall L,
             1 <= L -> 2 <= L <= 2 ->
             nth (L - 1) msd (Fin 0) = NaN).
Proof.
  exact (C2_msd_never_raises [Fin 0; Fin 1] [Fin 0; Fin 0] (Some 2%Z) eq_refl).
Defined.

(** ** The walk generator *)

Lemma normal_draws (size : Z) (g : rng) :
  (0 <= size)%Z ->
  np.random.normal 0 1 size g
  = (Ok (map (fun i => Fin (0 + 1 * g i)) (seq 0 (Z.to_nat size))),
     fun i => g (Z.to_nat size + i)).
Proof.
  intros Hs. unfold np.random.normal.
  replace (size <? 0)%Z with false by (symmetry; apply Z.ltb_ge; lia).
  destruct (Rlt_dec 1 0) as [H | _]; [lra | reflexivity].
Qed.

Lemma normal_negative (size : Z) (g : rng) :
  (size < 0)%Z -> np.random.normal 0 1 size g = (Raise ValueError, g).
Proof.
  intros Hs. unfold np.random.normal.
  now replace (size <? 0)%Z with true by (symmetry; apply Z.ltb_lt; lia).
Qed.

Lemma length_cumsum_from (acc : float64) (a : list float64) :
  length (np.cumsum_from acc a) = length a.
Proof.
  revert acc. induction a as [|v t IH]; intros acc; simpl; auto.
Qed.

Lemma length_cumsum (a : list float64) : length (np.cumsum a) = length a.
Proof.
  destruct a as [|v t]; simpl; [reflexivity | now rewrite length_cumsum_from].
Qed.

Lemma nth_cumsum_from (rs : list R) :
  forall (a : R) (k : nat),
    k < length rs ->
    nth k (np.cumsum_from (Fin a) (map Fin rs)) NaN
    = Fin (a + Rsum (firstn (S k) rs)).
Proof.
  induction rs as [|r t IH]; intros a k Hk; simpl in Hk; [lia|].
  destruct k as [|k].
  - simpl. f_equal. lra.
  - cbn [map np.cumsum_from nth fadd]. rewrite IH by lia.
    f_equal. cbn [firstn Rsum fold_right]. unfold Rsum. lra.
Qed.

(** Element [k] of the cumulative sum is the sum of the first [k + 1]
    increments. *)
Lemma nth_cumsum (rs : list R) (k : nat) :
  k < length rs ->
  nth k (np.cumsum (map Fin rs)) NaN = Fin (Rsum (firstn (S k) rs)).
Proof.
  destruct rs as [|r t]; intros Hk; simpl in Hk; [lia|].
  destruct k as [|k].
  - simpl. f_equal. lra.
  - cbn [map np.cumsum nth]. rewrite nth_cumsum_from by lia.
    reflexivity.
Qed.

Lemma firstn_seq_le (k : nat) :
  forall a n, k <= n -> firstn k (seq a n) = seq a k.
Proof.
  induction k as [|k IH]; intros a n Hk; [reflexivity|].
  destruct n as [|n]; [lia|].
  simpl. f_equal. apply IH. lia.
Qed.

Lemma Rsum_draws (g : rng) (a k n : nat) :
  k < n ->
  Rsum (firstn (S k) (map (fun i => (0 + 1 * g (a + i)%nat)%R) (seq 0 n)))
  = Rsum (map (fun i => g (a + i)) (seq 0 (S k))).
Proof.
  intros Hk. rewrite firstn_map, firstn_seq_le by lia.
  f_equal. apply map_ext. intros i. lra.
Qed.

(** What [generate_random_walk] does for a count that is not negative:
    it draws the [x] increments, then the [y] increments, and returns
    their cumulative sums. *)
Lemma generate_random_walk_eq (steps : Z) (g : rng) :
  (0 <= steps)%Z ->
  let n := Z.to_nat steps in
  generate_random_walk (Some steps) g
  = (Ok (np.cumsum (map Fin (map (fun i => (0 + 1 * g (0 + i)%nat)%R) (seq 0 n))),
         np.cumsum (map Fin (map (fun i => (0 + 1 * g (n + i)%nat)%R) (seq 0 n)))),
     fun i => g (n + (n + i))).
Proof.
  intros Hs n. unfold generate_random_walk, bindPy.
  rewrite normal_draws by assumption.
  rewrite normal_draws by assumption.
  unfold ret. fold n. rewrite !map_map. reflexivity.
Qed.

(** C7.  For every [steps >= 1] the generator returns coordinate arrays
    of length exactly [steps]; they are the running cumulative sums of
    the increments drawn, the [x] increments being the first [steps]
    samples of the source and the [y] increments the next [steps]; so
    the first point is the first pair of increments, not the origin. *)
Theorem C7_walk_is_cumulative_sum :
  forall (steps : Z) (g : rng),
    (1 <= steps)%Z ->
    let n := Z.to_nat steps in
    exists x y g',
      generate_random_walk (Some steps) g = (Ok (x, y), g')
      /\ Z.of_nat (length x) = steps
      /\ Z.of_nat (length y) = steps
      /\ x = np.cumsum (map (fun i => Fin (0 + 1 * g i)) (seq 0 n))
      /\ y = np.cumsum (map (fun i => Fin (0 + 1 * g (n + i))) (seq 0 n))
      /\ (forall k, k < n ->
            nth k x NaN = Fin (Rsum (map (fun i => g i) (seq 0 (S k))))
            /\ nth k y NaN
               = Fin (Rsum (map (fun i => g (n + i)) (seq 0 (S k)))))
      /\ nth 0 x NaN = Fin (g 0)
      /\ nth 0 y NaN = Fin (g n).
Proof.
  intros steps g Hs n.
  rewrite generate_random_walk_eq by lia. fold n.
  do 3 eexists. split; [reflexivity|].
  assert (Hnth : forall a k, k < n ->
            nth k (np.cumsum
                     (map Fin (map (fun i => (0 + 1 * g (a + i)%nat)%R) (seq 0 n))))
                NaN
            = Fin (Rsum (map (fun i => g (a + i)) (seq 0 (S k))))).
  { intros a k Hk.
    rewrite nth_cumsum by (now rewrite length_map, length_seq).
    now rewrite Rsum_draws. }
  split; [|split; [|split; [|split; [|split; [|split]]]]].
  - rewrite length_cumsum, !length_map, length_seq. lia.
  - rewrite length_cumsum, !length_map, length_seq. lia.
  - now rewrite map_map.
  - now rewrite map_map.
  - intros k Hk. split.
    + apply (Hnth 0 k Hk).
    + apply (Hnth n k Hk).
  - rewrite (Hnth 0 0) by lia. simpl. f_equal. lra.
  - rewrite (Hnth n 0) by lia. simpl. rewrite Nat.add_0_r. f_equal. lra.
Qed.

(** Three steps from the source that hands out 0, 1, 2, ... *)
Lemma C7_witness :
  exists x y g',
    generate_random_walk (Some 3%Z) (fun i => INR i) = (Ok (x, y), g')
    /\ Z.of_nat (length x) = 3%Z
    /\ Z.of_nat (length y) = 3%Z
    /\ x = np.cumsum (map (fun i => Fin (0 + 1 * INR i)) (seq 0 3))
    /\ y = np.cumsum (map (fun i => Fin (0 + 1 * INR (3 + i))) (seq 0 3))
    /\ (forall k, k < 3 ->
          nth k x NaN = Fin (Rsum (map (fun i => INR i) (seq 0 (S k))))
          /\ nth k y NaN
             = Fin (Rsum (map (fun i => INR (3 + i)) (seq 0 (S k)))))
    /\ nth 0 x NaN = Fin (INR 0)
    /\ nth 0 y NaN = Fin (INR 3).
Proof.
  apply (C7_walk_is_cumulative_sum 3 (fun i => INR i)). lia.
Defined.

(** C10.  With [steps] omitted the generator takes [steps = 1000] and
    returns coordinate arrays of length 1000. *)
Theorem C10_default_steps :
  forall g : rng,
    generate_random_walk None g = generate_random_walk (Some 1000%Z) g
    /\ exists x y g',
         generate_random_walk None g = (Ok (x, y), g')
         /\ length x = 1000
         /\ length y = 1000.
Proof.
  intros g. split; [reflexivity|].
  change (generate_random_walk None g)
    with (generate_random_walk (Some 1000%Z) g).
  rewrite generate_random_walk_eq by lia.
  do 3 eexists. split; [reflexivity|].
  split; rewrite length_cumsum, !length_map, length_seq; reflexivity.
Qed.

(** C8, as the specification states it, does not hold at [steps = 0]:
    the generator draws nothing and returns the empty trajectory. *)
Lemma C8_counterexample :
  (0 < 1)%Z
  /\ fst (generate_random_walk (Some 0%Z) (fun _ => 0%R)) = Ok ([], [])
  /\ ~ raises (fst (generate_random_walk (Some 0%Z) (fun _ => 0%R))).
Proof.
  assert (E : fst (generate_random_walk (Some 0%Z) (fun _ => 0%R))
              = Ok ([], [])).
  { rewrite generate_random_walk_eq by lia. reflexivity. }
  refine (conj _ (conj E _)).
  - lia.
  - intros [e He]. rewrite E in He. discriminate.
Qed.

(** C8, amended.  The generator fails, with numpy's [ValueError] and
    before anything is drawn from the source, whenever [steps < 0];
    with [steps = 0] it does not fail and returns the empty
    trajectory. *)
Theorem C8_negative_steps_raise :
  forall (steps : Z) (g : rng),
    ((steps < 0)%Z ->
     generate_random_walk (Some steps) g = (Raise ValueError, g))
    /\ (steps = 0%Z ->
        fst (generate_random_walk (Some steps) g) = Ok ([], [])).
Proof.
  intros steps g. split.
  - intros Hs. unfold generate_random_walk, bindPy.
    now rewrite normal_negative.
  - intros ->. rewrite generate_random_walk_eq by lia. reflexivity.
Qed.

(** A negative step count, [steps = -1]. *)
Lemma C8_witness :
  generate_random_walk (Some (-1)%Z) (fun _ => 0%R)
  = (Raise ValueError, fun _ => 0%R).
Proof.
  apply (proj1 (C8_negative_steps_raise (-1) (fun _ => 0%R))). lia.
Defined.

(** ** Sums of squares and the least-squares line *)

Lemma Rsum_cons (r : R) (l : list R) : Rsum (r :: l) = (r + Rsum l)%R.
Proof. reflexivity. Qed.

Lemma Rdot_cons (a b : R) (x y : list R) :
  Rdot (a :: x) (b :: y) = (a * b + Rdot x y)%R.
Proof. reflexivity. Qed.

Lemma Rsum_nonneg (f : R -> R) (xs : list R) :
  (forall x, 0 <= f x)%R -> (0 <= Rsum (map f xs))%R.
Proof.
  intros Hf. induction xs as [|x xs IH]; cbn [map].
  - unfold Rsum. simpl. lra.
  - rewrite Rsum_cons. specialize (Hf x). lra.
Qed.

Lemma Rsum_ge_term (f : R -> R) (xs : list R) (a : R) :
  (forall x, 0 <= f x)%R -> In a xs -> (f a <= Rsum (map f xs))%R.
Proof.
  intros Hf. induction xs as [|x xs IH]; intros Hin; [contradiction|].
  cbn [map]. rewrite Rsum_cons.
  pose proof (Rsum_nonneg f xs Hf) as Hrest.
  destruct Hin as [-> | Hin].
  - lra.
  - specialize (IH Hin). specialize (Hf x). lra.
Qed.

(** The squares of the values of a line at the points [xs] add up to a
    quadratic form in its two coefficients. *)
Lemma sum_affine_sq (u v : R) (xs : list R) :
  Rsum (map (fun x => ((u * x + v) * (u * x + v))%R) xs)
  = (u * u * Rdot xs xs + 2 * u * v * Rsum xs + INR (length xs) * v * v)%R.
Proof.
  induction xs as [|x xs IH].
  - unfold Rdot, Rsum. simpl. ring.
  - cbn [map length]. rewrite S_INR, !Rsum_cons, Rdot_cons, IH. ring.
Qed.

Lemma affine_sq_nonneg (u v x : R) : (0 <= (u * x + v) * (u * x + v))%R.
Proof. exact (Rle_0_sqr (u * x + v)). Qed.

Lemma sse_expand (xs : list R) :
  forall (ys : list R) (a b : R),
    length xs = length ys ->
    sse xs ys a b
    = (Rdot ys ys - 2 * a * Rdot xs ys - 2 * b * Rsum ys
       + a * a * Rdot xs xs + 2 * a * b * Rsum xs
       + INR (length xs) * b * b)%R.
Proof.
  induction xs as [|x xs IH]; intros [|y ys] a b Hlen;
    try discriminate Hlen.
  - unfold sse, Rdot, Rsum. simpl. ring.
  - injection Hlen as Hlen.
    unfold sse in *. cbn [combine map length fst snd].
    rewrite S_INR, !Rsum_cons, !Rdot_cons, IH by assumption. ring.
Qed.

Lemma normal_equations_identity (n Sx Sy Sxx Sxy Syy a b ah bh : R) :
  (ah * Sxx + bh * Sx = Sxy)%R ->
  (ah * Sx + n * bh = Sy)%R ->
  ((Syy - 2 * a * Sxy - 2 * b * Sy + a * a * Sxx + 2 * a * b * Sx + n * b * b)
   - (Syy - 2 * ah * Sxy - 2 * bh * Sy + ah * ah * Sxx + 2 * ah * bh * Sx
      + n * bh * bh)
   = (a - ah) * (a - ah) * Sxx + 2 * (a - ah) * (b - bh) * Sx
     + n * (b - bh) * (b - bh))%R.
Proof. intros <- <-. ring. Qed.

(** Two distinct abscissas make the determinant of the normal equations
    positive. *)
Lemma ols_den_pos (xs : list R) (p q : R) :
  In p xs -> In q xs -> p <> q -> (0 < ols_den xs)%R.
Proof.
  intros Hp Hq Hpq.
  set (n := INR (length xs)). set (S := Rsum xs).
  assert (Hn : (0 < n)%R).
  { apply lt_0_INR. destruct xs; [contradiction | simpl; lia]. }
  pose proof (sum_affine_sq n (- S) xs) as E. fold n S in E.
  assert (Ed : (n * ols_den xs
                = Rsum (map (fun x => (n * x + - S) * (n * x + - S)) xs))%R).
  { rewrite E. unfold ols_den. fold n S. ring. }
  assert (Hc : exists c, In c xs /\ (n * c + - S <> 0)%R).
  { destruct (Req_dec (n * p + - S) 0) as [Ep | Np].
    - exists q. split; [assumption|]. intros Eq. apply Hpq.
      apply Rmult_eq_reg_l with n; lra.
    - exists p. split; assumption. }
  destruct Hc as (c & Hc & Hne).
  pose proof (Rsum_ge_term (fun x => (n * x + - S) * (n * x + - S))%R xs c
                (affine_sq_nonneg n (- S)) Hc) as Hge.
  cbv beta in Hge. rewrite <- Ed in Hge.
  assert (Hsq : (0 < (n * c + - S) * (n * c + - S))%R) by nra.
  nra.
Qed.

Lemma Rdot_self_pos (xs : list R) (c : R) :
  In c xs -> c <> 0%R -> (0 < Rdot xs xs)%R.
Proof.
  intros Hc Hne.
  pose proof (sum_affine_sq 1 0 xs) as E.
  pose proof (Rsum_ge_term (fun x => (1 * x + 0) * (1 * x + 0))%R xs c
                (affine_sq_nonneg 1 0) Hc) as Hge.
  cbv beta in Hge. rewrite E in Hge.
  assert (Hsq : (0 < c * c)%R) by nra.
  nra.
Qed.

(** The gap between the residuals of any line and those of the line of
    the normal equations is itself a sum of squares. *)
Lemma sse_gap (xs ys : list R) (a b : R) :
  length xs = length ys ->
  ols_den xs <> 0%R ->
  (sse xs ys a b - sse xs ys (ols_slope xs ys) (ols_intercept xs ys)
   = Rsum (map (fun x => ((a - ols_slope xs ys) * x
                          + (b - ols_intercept xs ys))
                         * ((a - ols_slope xs ys) * x
                            + (b - ols_intercept xs ys))) xs))%R.
Proof.
  intros Hlen Hden.
  assert (Hn : INR (length xs) <> 0%R).
  { apply not_0_INR. intros E. apply Hden. unfold ols_den.
    destruct xs; [|discriminate]. unfold Rdot, Rsum. simpl. ring. }
  assert (N2 : (ols_slope xs ys * Rsum xs
                + INR (length xs) * ols_intercept xs ys = Rsum ys)%R).
  { unfold ols_intercept. field. exact Hn. }
  assert (N1 : (ols_slope xs ys * Rdot xs xs
                + ols_intercept xs ys * Rsum xs = Rdot xs ys)%R).
  { apply Rmult_eq_reg_l with (INR (length xs)); [|exact Hn].
    assert (D : (ols_slope xs ys * ols_den xs
                 = INR (length xs) * Rdot xs ys - Rsum xs * Rsum ys)%R).
    { unfold ols_slope. field. exact Hden. }
    unfold ols_den in D. nra. }
  rewrite !sse_expand by assumption.
  rewrite sum_affine_sq.
  rewrite (normal_equations_identity _ _ _ _ _ _ a b _ _ N1 N2).
  ring.
Qed.

(** The line of the normal equations is a least-squares line, and with
    two distinct abscissas it is the only one. *)
Lemma ols_least_squares (xs ys : list R) (p q : R) :
  length xs = length ys ->
  In p xs -> In q xs -> p <> q ->
  least_squares xs ys (ols_slope xs ys) (ols_intercept xs ys)
  /\ forall a b,
       least_squares xs ys a b ->
       a = ols_slope xs ys /\ b = ols_intercept xs ys.
Proof.
  intros Hlen Hp Hq Hpq.
  pose proof (ols_den_pos xs p q Hp Hq Hpq) as Hden.
  assert (Hden' : ols_den xs <> 0%R) by lra.
  split.
  - intros a b.
    pose proof (sse_gap xs ys a b Hlen Hden') as G.
    pose proof (Rsum_nonneg
                  (fun x => ((a - ols_slope xs ys) * x
                             + (b - ols_intercept xs ys))
                            * ((a - ols_slope xs ys) * x
                               + (b - ols_intercept xs ys)))%R xs
                  (affine_sq_nonneg _ _)) as Hnn.
    lra.
  - intros a b Hls.
    pose proof (sse_gap xs ys a b Hlen Hden') as G.
    specialize (Hls (ols_slope xs ys) (ols_intercept xs ys)).
    set (u := (a - ols_slope xs ys)%R) in *.
    set (v := (b - ols_intercept xs ys)%R) in *.
    pose proof (Rsum_ge_term (fun x => (u * x + v) * (u * x + v))%R xs p
                  (affine_sq_nonneg u v) Hp) as Gp.
    pose proof (Rsum_ge_term (fun x => (u * x + v) * (u * x + v))%R xs q
                  (affine_sq_nonneg u v) Hq) as Gq.
    cbv beta in Gp, Gq.
    assert (Zp : (u * p + v = 0)%R) by nra.
    assert (Zq : (u * q + v = 0)%R) by nra.
    assert (Zu : (u * (p - q) = 0)%R) by lra.
    apply Rmult_integral in Zu as [Zu | Zu]; [|lra].
    assert (Zv : v = 0%R) by (rewrite Zu in Zp; lra).
    unfold u, v in *. split; lra.
Qed.

(** ** The fitter *)

Lemma finite_fin (rs : list R) : np.finite (map Fin rs) = Some rs.
Proof.
  induction rs as [|r rs IH]; simpl; [reflexivity | now rewrite IH].
Qed.

(** An array with a value that is not finite has no finite reading. *)
Lemma finite_none (a : list float64) (v : float64) :
  In v a -> (forall r, v <> Fin r) -> np.finite a = None.
Proof.
  intros Hin Hv. induction a as [|w a IH]; [contradiction|].
  destruct Hin as [-> | Hin].
  - destruct v; simpl; try reflexivity. now contradiction (Hv r).
  - simpl. rewrite (IH Hin). now destruct w.
Qed.

Lemma flog_pos (r : R) : (0 < r)%R -> flog (Fin r) = Fin (ln r).
Proof.
  intros Hr. unfold flog. destruct (Rlt_dec 0 r); [reflexivity | contradiction].
Qed.

(** [np.log] of a value that is not positive is not finite. *)
Lemma flog_nonpos (r : R) :
  (r <= 0)%R -> forall s, flog (Fin r) <> Fin s.
Proof.
  intros Hr s. unfold flog.
  destruct (Rlt_dec 0 r); [lra|].
  destruct (Req_dec_T r 0); discriminate.
Qed.

Lemma log_lags (lags : list Z) :
  (forall l, In l lags -> (1 <= l)%Z) ->
  np.log (np.asfloat lags) = map Fin (map (fun l => ln (IZR l)) lags).
Proof.
  intros Hl. unfold np.log, np.asfloat. rewrite !map_map.
  apply map_ext_in. intros l Hin.
  apply flog_pos. apply (IZR_lt 0). specialize (Hl l Hin). lia.
Qed.

Lemma log_positive (ms : list R) :
  (forall m, In m ms -> (0 < m)%R) ->
  np.log (map Fin ms) = map Fin (map ln ms).
Proof.
  intros Hm. unfold np.log. rewrite !map_map.
  apply map_ext_in. intros m Hin. apply flog_pos. now apply Hm.
Qed.

Lemma ln_lag_injective (l1 l2 : Z) :
  (1 <= l1)%Z -> (1 <= l2)%Z -> l1 <> l2 -> ln (IZR l1) <> ln (IZR l2).
Proof.
  intros H1 H2 Hne E. apply Hne, eq_IZR.
  apply ln_inv; [apply (IZR_lt 0); lia | apply (IZR_lt 0); lia | exact E].
Qed.

(** On finite data with two distinct abscissas [np.polyfit] returns the
    line of the normal equations. *)
Lemma polyfit1_fin (xs ys : list R) (p q : R) :
  length xs = length ys ->
  In p xs -> In q xs -> p <> q ->
  np.polyfit1 (map Fin xs) (map Fin ys)
  = Ok [Fin (ols_slope xs ys); Fin (ols_intercept xs ys)].
Proof.
  intros Hlen Hp Hq Hpq. unfold np.polyfit1.
  destruct (map Fin xs) as [|v t] eqn:Ex.
  { destruct xs; [contradiction | discriminate]. }
  rewrite <- Ex. clear v t Ex.
  rewrite !length_map, Hlen, Nat.eqb_refl. cbn [negb].
  rewrite !finite_fin.
  assert (Hnz : exists c, In c xs /\ c <> 0%R).
  { destruct (Req_dec p 0) as [Ep | Np].
    - exists q. split; [assumption | congruence].
    - exists p. split; assumption. }
  destruct Hnz as (c & Hc & Hcne).
  pose proof (Rdot_self_pos xs c Hc Hcne) as Hdot.
  destruct (Req_dec_T (Rdot xs xs) 0) as [E | _]; [lra|].
  pose proof (ols_den_pos xs p q Hp Hq Hpq) as Hden.
  destruct (Req_dec_T (ols_den xs) 0) as [E | _]; [lra|].
  reflexivity.
Qed.

(** The last two statements of the fitter, once the coefficients are
    there. *)
Lemma fit_result (c0 c1 : float64) :
  (slope <- np.getitem [c0; c1] 0 ;;
   intercept <- np.getitem [c0; c1] 1 ;;
   Ok (np.fdiv (np.fexp intercept) (Fin 4), slope, [c0; c1]))
  = Ok (np.fdiv (np.fexp c1) (Fin 4), c0, [c0; c1]).
Proof. reflexivity. Qed.

(** The fitter on positive lags with two distinct values and positive
    MSD values: no exception, and the coefficients are those of the
    normal equations for the logarithms. *)
Lemma calculate_diffusion_coefficient_fin (lags : list Z) (ms : list R)
  (l1 l2 : Z) :
  length lags = length ms ->
  (forall l, In l lags -> (1 <= l)%Z) ->
  (forall m, In m ms -> (0 < m)%R) ->
  In l1 lags -> In l2 lags -> l1 <> l2 ->
  let xs := map (fun l => ln (IZR l)) lags in
  let ys := map ln ms in
  calculate_diffusion_coefficient lags (map Fin ms)
  = Ok (Fin (exp (ols_intercept xs ys) / 4),
        Fin (ols_slope xs ys),
        [Fin (ols_slope xs ys); Fin (ols_intercept xs ys)]).
Proof.
  intros Hlen Hl Hm H1 H2 Hne xs ys.
  unfold calculate_diffusion_coefficient.
  rewrite log_lags, log_positive by assumption. fold xs ys.
  rewrite (polyfit1_fin xs ys (ln (IZR l1)) (ln (IZR l2))).
  - cbn [bind]. rewrite fit_result. cbn [np.fexp].
    rewrite fdiv_fin by lra. reflexivity.
  - unfold xs, ys. now rewrite !length_map.
  - unfold xs. now apply (in_map (fun l => ln (IZR l))).
  - unfold xs. now apply (in_map (fun l => ln (IZR l))).
  - apply ln_lag_injective; auto.
Qed.

(** C4, as the specification states it, does not hold for the lag
    series of one lag, [[1]]: its logarithm is the single abscissa 0,
    the column of the design matrix is zero throughout, and the fitter
    ends in numpy's [LinAlgError] instead of returning a fit. *)
Lemma C4_counterexample :
  [1%Z] = lag_series 1
  /\ (forall m, In m [1%R] -> (0 < m)%R)
  /\ calculate_diffusion_coefficient [1%Z] [Fin 1] = Raise LinAlgError
  /\ ~ (exists slope intercept coeffs,
          calculate_diffusion_coefficient [1%Z] [Fin 1]
          = Ok (Fin (exp intercept / 4), Fin slope, coeffs)).
Proof.
  assert (E : calculate_diffusion_coefficient [1%Z] [Fin 1]
              = Raise LinAlgError).
  { unfold calculate_diffusion_coefficient.
    rewrite log_lags by (intros l [<- | []]; lia).
    change [Fin 1] with (map Fin [1%R]).
    rewrite log_positive by (intros m [<- | []]; lra).
    cbn [map]. rewrite ln_1.
    unfold np.polyfit1. cbn [length Nat.eqb negb np.finite].
    destruct (Req_dec_T (Rdot [0%R] [0%R]) 0) as [_ | N]; [reflexivity|].
    exfalso. apply N. unfold Rdot, Rsum. simpl. ring. }
  refine (conj eq_refl (conj _ (conj E _))).
  - intros m [<- | []]. lra.
  - intros (slope & intercept & coeffs & H). rewrite E in H. discriminate.
Qed.

(** C4, amended.  For positive integer lags with at least two distinct
    values (every lag series [[1; ...; m]] with [m >= 2] is one) and as
    many strictly positive MSD values, the fitter returns
    [(exp(intercept) / 4, slope, [slope; intercept])], where
    [(slope, intercept)] is the ordinary least-squares line of
    [log(msd)] on [log(lags)]: it minimises the sum of the squared
    residuals, and it is the only line that does. *)
Theorem C4_fit_is_least_squares :
  forall (lags : list Z) (ms : list R),
    length lags = length ms ->
    (forall l, In l lags -> (1 <= l)%Z) ->
    (forall m, In m ms -> (0 < m)%R) ->
    (exists l1 l2, In l1 lags /\ In l2 lags /\ l1 <> l2) ->
    let xs := map (fun l => ln (IZR l)) lags in
    let ys := map ln ms in
    exists slope intercept,
      calculate_diffusion_coefficient lags (map Fin ms)
      = Ok (Fin (exp intercept / 4), Fin slope, [Fin slope; Fin intercept])
      /\ least_squares xs ys slope intercept
      /\ (forall a b, least_squares xs ys a b -> a = slope /\ b = intercept).
Proof.
  intros lags ms Hlen Hl Hm (l1 & l2 & H1 & H2 & Hne) xs ys.
  exists (ols_slope xs ys), (ols_intercept xs ys).
  split.
  - now apply (calculate_diffusion_coefficient_fin lags ms l1 l2).
  - apply (ols_least_squares xs ys (ln (IZR l1)) (ln (IZR l2))).
    + unfold xs, ys. now rewrite !length_map.
    + unfold xs. now apply (in_map (fun l => ln (IZR l))).
    + unfold xs. now apply (in_map (fun l => ln (IZR l))).
    + apply ln_lag_injective; auto.
Qed.

(** The fit of scenario B is the least-squares line. *)
Lemma C4_witness :
  exists slope intercept,
    calculate_diffusion_coefficient [1; 2]%Z (map Fin [1; 4]%R)
    = Ok (Fin (exp intercept / 4), Fin slope, [Fin slope; Fin intercept])
    /\ least_squares (map (fun l => ln (IZR l)) [1; 2]%Z) (map ln [1; 4]%R)
                     slope intercept
    /\ (forall a b,
          least_squares (map (fun l => ln (IZR l)) [1; 2]%Z) (map ln [1; 4]%R)
                        a b ->
          a = slope /\ b = intercept).
Proof.
  apply (C4_fit_is_least_squares [1; 2]%Z [1; 4]%R).
  - reflexivity.
  - intros l [<- | [<- | []]]; lia.
  - intros m [<- | [<- | []]]; lra.
  - exists 1%Z, 2%Z. simpl. repeat split; auto. discriminate.
Defined.

(** A value of the MSD that is not positive: its logarithm is not
    finite, the fit goes through without an exception, and the slope,
    the intercept and the coefficient come out as NaN. *)
Lemma fit_nonpositive_msd (lags : list Z) (msd : list float64) (l : Z) (r : R) :
  length lags = length msd ->
  (forall k, In k lags -> (1 <= k)%Z) ->
  In l lags -> (2 <= l)%Z ->
  In (Fin r) msd -> (r <= 0)%R ->
  calculate_diffusion_coefficient lags msd = Ok (NaN, NaN, [NaN; NaN]).
Proof.
  intros Hlen Hl Hin Hl2 Hr Hr0.
  unfold calculate_diffusion_coefficient.
  rewrite log_lags by assumption.
  set (xs := map (fun k => ln (IZR k)) lags).
  assert (Hy : np.finite (np.log msd) = None).
  { apply finite_none with (v := flog (Fin r)).
    - unfold np.log. now apply in_map.
    - now apply flog_nonpos. }
  assert (Hx : In (ln (IZR l)) xs).
  { unfold xs. now apply (in_map (fun k => ln (IZR k))). }
  assert (Hpos : (0 < ln (IZR l))%R).
  { rewrite <- ln_1. apply ln_increasing; [lra|]. apply (IZR_lt 1). lia. }
  pose proof (Rdot_self_pos xs _ Hx (Rgt_not_eq _ _ Hpos)) as Hdot.
  unfold np.polyfit1.
  destruct (map Fin xs) as [|v t] eqn:Ex.
  { destruct xs; [contradiction | discriminate]. }
  rewrite <- Ex. clear v t Ex.
  assert (El : length (map Fin xs) = length (np.log msd)).
  { unfold xs, np.log. now rewrite !length_map. }
  rewrite El, Nat.eqb_refl. cbn [negb].
  rewrite finite_fin.
  destruct (Req_dec_T (Rdot xs xs) 0) as [E | _]; [lra|].
  rewrite Hy. reflexivity.
Qed.

(** C3, as the specification states it, does not hold: with the MSD
    values [[0; 1]] at the lags [[1; 2]] the fitter raises nothing and
    returns NaN for the coefficient and the slope. *)
Lemma C3_counterexample :
  In (Fin 0) [Fin 0; Fin 1]
  /\ calculate_diffusion_coefficient [1; 2]%Z [Fin 0; Fin 1]
     = Ok (NaN, NaN, [NaN; NaN])
  /\ ~ raises (calculate_diffusion_coefficient [1; 2]%Z [Fin 0; Fin 1]).
Proof.
  assert (E : calculate_diffusion_coefficient [1; 2]%Z [Fin 0; Fin 1]
              = Ok (NaN, NaN, [NaN; NaN])).
  { apply (fit_nonpositive_msd [1; 2]%Z [Fin 0; Fin 1] 2 0).
    - reflexivity.
    - intros k [<- | [<- | []]]; lia.
    - simpl; auto.
    - lia.
    - simpl; auto.
    - lra. }
  refine (conj _ (conj E _)).
  - simpl; auto.
  - intros [e He]. rewrite E in He. discriminate.
Qed.

(** C3, amended.  For positive integer lags, one of them at least 2,
    and as many MSD values, if any MSD value is [<= 0] the fitter
    raises no error: the logarithm of that value is minus infinity or
    NaN, and the fitter returns NaN as slope, as intercept and as
    diffusion coefficient. *)
Theorem C3_nonpositive_msd_gives_nan :
  forall (lags : list Z) (msd : list float64),
    length lags = length msd ->
    (forall k, In k lags -> (1 <= k)%Z) ->
    (exists l, In l lags /\ (2 <= l)%Z) ->
    (exists r, In (Fin r) msd /\ (r <= 0)%R) ->
    calculate_diffusion_coefficient lags msd = Ok (NaN, NaN, [NaN; NaN])
    /\ ~ raises (calculate_diffusion_coefficient lags msd).
Proof.
  intros lags msd Hlen Hl (l & Hin & Hl2) (r & Hr & Hr0).
  pose proof (fit_nonpositive_msd lags msd l r Hlen Hl Hin Hl2 Hr Hr0) as E.
  split; [exact E|].
  intros [e He]. rewrite E in He. discriminate.
Qed.

(** A negative MSD value among three. *)
Lemma C3_witness :
  calculate_diffusion_coefficient [1; 2; 3]%Z [Fin 1; Fin (-1); Fin 2]
  = Ok (NaN, NaN, [NaN; NaN])
  /\ ~ raises (calculate_diffusion_coefficient
                 [1; 2; 3]%Z [Fin 1; Fin (-1); Fin 2]).
Proof.
  apply (C3_nonpositive_msd_gives_nan [1; 2; 3]%Z [Fin 1; Fin (-1); Fin 2]).
  - reflexivity.
  - intros k [<- | [<- | [<- | []]]]; lia.
  - exists 3%Z. split; [simpl; auto | lia].
  - exists (-1)%R. split; [simpl; auto | lra].
Defined.

(** ** Purity: the functions on the arrays of the store *)

Lemma contents_app_old (g : rng) (h : list (list float64))
  (a : list float64) (r : ref) :
  r < length h -> contents (World g (h ++ [a])) r = contents (World g h) r.
Proof.
  intros Hr. unfold contents. cbn [heap]. now apply app_nth1.
Qed.

Lemma contents_app_new (g : rng) (h : list (list float64)) (a : list float64) :
  contents (World g (h ++ [a])) (length h) = a.
Proof.
  unfold contents. cbn [heap]. apply nth_middle.
Qed.

Lemma contents_update (g : rng) (h : list (list float64))
  (a : list float64) (r r' : ref) :
  r < length h ->
  contents (World g (np.update h r a)) r'
  = if r' =? r then a else contents (World g h) r'.
Proof.
  intros Hr. unfold contents. cbn [heap]. now apply nth_update.
Qed.

(** The loop writes into [msd] and nowhere else: when [x] and [y] are
    other arrays than [msd], it leaves the random source and every
    other array as they were, and [msd] ends up as the loop on the
    contents says. *)
Lemma msd_loop_st_spec (x y msd : ref) (lags : list Z) :
  x <> msd -> y <> msd ->
  forall w,
    msd < length (heap w) ->
    exists r w',
      msd_loop_st x y lags msd w = (r, w')
      /\ gen w' = gen w
      /\ length (heap w') = length (heap w)
      /\ (forall a, a <> msd -> contents w' a = contents w a)
      /\ match msd_loop (contents w x) (contents w y) lags (contents w msd) with
         | Ok m => r = Ok tt /\ contents w' msd = m
         | Raise e => r = Raise e
         end.
Proof.
  intros Hx Hy. induction lags as [|lag rest IH]; intros w Hm.
  - exists (Ok tt), w. cbn. repeat split; reflexivity.
  - cbn [msd_loop_st msd_loop].
    unfold bindSt at 1 2 3 4. unfold read_array, liftSt.
    destruct (msd_at (contents w x) (contents w y) lag) as [v | e].
    2:{ exists (Raise e), w. cbn. repeat split; reflexivity. }
    cbn [bind]. unfold setitem_array.
    destruct (np.setitem (contents w msd) (lag - 1) v) as [a | e].
    2:{ exists (Raise e), w. cbn. repeat split; reflexivity. }
    cbn [bind]. destruct w as [g h]. cbn [gen heap] in *.
    destruct (IH (World g (np.update h msd a))) as (r & w' & Hrun & Hg & Hl & Hfr & Hres).
    { cbn [heap]. now rewrite length_update. }
    exists r, w'. split; [exact Hrun|].
    split; [exact Hg|].
    split; [cbn [heap] in Hl; now rewrite length_update in Hl|].
    split.
    + intros b Hb. rewrite (Hfr b Hb), contents_update by assumption.
      now apply Nat.eqb_neq in Hb as ->.
    + rewrite !contents_update in Hres by assumption.
      rewrite Nat.eqb_refl in Hres.
      apply Nat.eqb_neq in Hx, Hy. rewrite Hx, Hy in Hres.
      exact Hres.
Qed.

(** [calculate_msd_st] on two arrays of the store: it adds one array,
    the MSD array it returns, and touches nothing else; what it returns
    is what [calculate_msd] gives on the contents of [x] and [y]. *)
Lemma calculate_msd_st_spec (x y : ref) (max_lag : option Z) (w : world) :
  x < length (heap w) -> y < length (heap w) ->
  exists r w',
    calculate_msd_st x y max_lag w = (r, w')
    /\ gen w' = gen w
    /\ length (heap w') = S (length (heap w))
    /\ (forall a, a < length (heap w) -> contents w' a = contents w a)
    /\ (forall lags m, r = Ok (lags, m) -> m = length (heap w))
    /\ msd_outcome w' r
       = calculate_msd (contents w x) (contents w y) max_lag.
Proof.
  intros Hx Hy. destruct w as [g h]. cbn [gen heap] in *.
  unfold calculate_msd_st, calculate_msd.
  unfold bindSt at 1 2. unfold read_array, new_array. cbn [gen heap].
  set (lags := np.arange 1 _).
  set (w1 := World g (h ++ [np.zeros_like lags])).
  destruct (msd_loop_st_spec x y (length h) lags) with (w := w1)
    as (r0 & w' & Hrun & Hg & Hl & Hfr & Hres); try lia.
  { unfold w1. cbn [heap]. rewrite length_app. simpl. lia. }
  unfold w1 in Hres.
  rewrite !contents_app_old, contents_app_new in Hres by assumption.
  unfold bindSt. rewrite Hrun.
  assert (Hlen : length (heap w') = S (length h)).
  { rewrite Hl. unfold w1. cbn [heap]. rewrite length_app. simpl. lia. }
  assert (Hframe : forall a, a < length h ->
                     contents w' a = contents (World g h) a).
  { intros a Ha. rewrite Hfr by lia. unfold w1.
    now apply contents_app_old. }
  destruct (msd_loop _ _ _ _) as [m | e].
  - destruct Hres as [-> Hm].
    eexists _, w'. split; [reflexivity|].
    split; [exact Hg|]. split; [exact Hlen|]. split; [exact Hframe|].
    split.
    + now intros lags' m' [= _ <-].
    + cbn [msd_outcome bind]. now rewrite Hm.
  - subst r0.
    eexists _, w'. split; [reflexivity|].
    split; [exact Hg|]. split; [exact Hlen|]. split; [exact Hframe|].
    split; [discriminate | reflexivity].
Qed.

(** A write into an array of the store is seen by whoever holds the
    array: not every computation leaves the arrays as they were. *)
Lemma setitem_array_is_seen :
  contents (snd (setitem_array 0 0 (Fin 1) (World (fun _ => 0%R) [[Fin 0]]))) 0
  <> contents (World (fun _ => 0%R) [[Fin 0]]) 0.
Proof.
  cbn. intros [= H]. lra.
Qed.



(** * Further properties *)

(** ** The estimator never returns a negative value *)

Lemma fsquare_not_negative (v : float64) : not_negative (fsquare v).
Proof.
  destruct v; simpl; auto. exact (Rle_0_sqr r).
Qed.

Lemma fadd_not_negative (a b : float64) :
  not_negative a -> not_negative b -> not_negative (fadd a b).
Proof.
  destruct a, b; simpl; auto; try tauto. lra.
Qed.

Lemma square_not_negative (a : list float64) :
  Forall not_negative (np.square a).
Proof.
  unfold np.square. apply Forall_forall. intros v Hv.
  apply in_map_iff in Hv as (w & <- & _). apply fsquare_not_negative.
Qed.

(** The three ways a broadcast operation succeeds. *)
Lemma broadcast_ok (op : float64 -> float64 -> float64) (a b c : list float64) :
  np.broadcast op a b = Ok c ->
  c = map (fun p => op (fst p) (snd p)) (combine a b)
  \/ (exists a0, a = [a0] /\ c = map (fun v => op a0 v) b)
  \/ (exists b0, b = [b0] /\ c = map (fun v => op v b0) a).
Proof.
  unfold np.broadcast. destruct (length a =? length b).
  - intros [= <-]. now left.
  - destruct a as [|a0 [|a1 a']].
    + destruct b as [|b0 [|b1 b']]; try discriminate.
      intros [= <-]. right. right. now exists b0.
    + intros [= <-]. right. left. now exists a0.
    + destruct b as [|b0 [|b1 b']]; try discriminate.
      intros [= <-]. right. right. now exists b0.
Qed.

Lemma add_not_negative (a b c : list float64) :
  Forall not_negative a -> Forall not_negative b ->
  np.add a b = Ok c -> Forall not_negative c.
Proof.
  intros Ha Hb Hc. rewrite Forall_forall in Ha, Hb.
  apply broadcast_ok in Hc as [-> | [(a0 & -> & ->) | (b0 & -> & ->)]];
    apply Forall_forall; intros v Hv.
  - apply in_map_iff in Hv as ([p q] & <- & Hin). simpl.
    apply fadd_not_negative.
    + apply Ha. eapply in_combine_l; eauto.
    + apply Hb. eapply in_combine_r; eauto.
  - apply in_map_iff in Hv as (w & <- & Hin).
    apply fadd_not_negative; [apply Ha; simpl; auto | now apply Hb].
  - apply in_map_iff in Hv as (w & <- & Hin).
    apply fadd_not_negative; [now apply Ha | apply Hb; simpl; auto].
Qed.

Lemma fold_fadd_not_negative (a : list float64) :
  forall acc,
    Forall not_negative a -> not_negative acc ->
    not_negative (fold_left fadd a acc).
Proof.
  induction a as [|v a IH]; intros acc Ha Hacc; simpl; [assumption|].
  inversion Ha; subst. apply IH; [assumption|].
  now apply fadd_not_negative.
Qed.

Lemma mean_not_negative (a : list float64) :
  Forall not_negative a -> not_negative (np.mean a).
Proof.
  intros Ha. unfold np.mean.
  assert (Hs : not_negative (np.sum a)).
  { unfold np.sum. apply fold_fadd_not_negative; [assumption | simpl; lra]. }
  pose proof (pos_INR (length a)) as Hn.
  destruct (np.sum a) as [r | | |]; simpl in Hs |- *; auto;
    try contradiction.
  - destruct (Req_dec_T (INR (length a)) 0) as [E | N].
    + destruct (Req_dec_T r 0); simpl; auto.
      destruct (Rlt_dec 0 r); simpl; auto. lra.
    + simpl. apply Rmult_le_pos; [assumption|].
      apply Rlt_le, Rinv_0_lt_compat. lra.
  - destruct (Rlt_dec (INR (length a)) 0); simpl; auto. lra.
Qed.

Lemma msd_at_not_negative (x y : list float64) (lag : Z) (v : float64) :
  msd_at x y lag = Ok v -> not_negative v.
Proof.
  unfold msd_at.
  destruct (np.subtract _ _) as [dx|]; [|discriminate]. cbn [bind].
  destruct (np.subtract _ _) as [dy|]; [|discriminate]. cbn [bind].
  destruct (np.add _ _) as [sq|] eqn:Esq; [|discriminate]. cbn [bind].
  intros [= <-]. apply mean_not_negative.
  eapply add_not_negative; [| |exact Esq]; apply square_not_negative.
Qed.

Lemma Forall_update (A : Type) (P : A -> Prop) (l : list A) :
  forall i v, Forall P l -> P v -> Forall P (np.update l i v).
Proof.
  induction l as [|h t IH]; intros i v Hl Hv; simpl; [constructor|].
  inversion Hl; subst.
  destruct i; constructor; auto.
Qed.

Lemma msd_loop_not_negative (x y : list float64) (lags : list Z) :
  forall msd msd',
    Forall not_negative msd ->
    msd_loop x y lags msd = Ok msd' ->
    Forall not_negative msd'.
Proof.
  induction lags as [|lag rest IH]; intros msd msd' Hm; simpl.
  - now intros [= <-].
  - destruct (msd_at x y lag) as [v|] eqn:Ev; [|discriminate]. cbn [bind].
    unfold np.setitem.
    destruct (np.index _ _) as [k|]; [|discriminate]. cbn [bind].
    apply IH. apply Forall_update; [assumption|].
    eapply msd_at_not_negative; eauto.
Qed.

(** X1.  Whatever the coordinate arrays and [max_lag], every value of
    the MSD series that [calculate_msd] returns is not negative: it is
    a finite value [>= 0], plus infinity or NaN, never a negative
    number and never minus infinity.  On arrays of one length the call
    does return. *)
Theorem X1_msd_not_negative :
  forall (x y : list float64) (max_lag : option Z),
    (forall lags msd,
        calculate_msd x y max_lag = Ok (lags, msd) ->
        Forall not_negative msd)
    /\ (length x = length y ->
        exists lags msd,
          calculate_msd x y max_lag = Ok (lags, msd)
          /\ Forall not_negative msd).
Proof.
  intros x y max_lag.
  assert (G : forall lags msd,
             calculate_msd x y max_lag = Ok (lags, msd) ->
             Forall not_negative msd).
  { intros lags msd. unfold calculate_msd.
    destruct (msd_loop _ _ _ _) as [m|] eqn:E; [|discriminate]. cbn [bind].
    intros [= _ <-].
    eapply msd_loop_not_negative; [|exact E].
    unfold np.zeros_like. apply Forall_forall.
    intros v Hv. apply repeat_spec in Hv. subst. simpl. lra. }
  split; [exact G|].
  intros Hxy. rewrite calculate_msd_eq by assumption.
  do 2 eexists. split; [reflexivity|].
  apply (G (lag_series (Z.to_nat (resolve_max_lag x max_lag)))).
  now apply calculate_msd_eq.
Qed.

(** A trajectory of three points, [max_lag = 3]: the last value is NaN,
    the others are finite and not negative. *)
Lemma X1_witness :
  exists lags msd,
    calculate_msd [Fin 0; Fin 1; Fin 3] [Fin 0; Fin 2; Fin 1] (Some 3%Z)
    = Ok (lags, msd)
    /\ Forall not_negative msd.
Proof.
  apply (proj2 (X1_msd_not_negative
                  [Fin 0; Fin 1; Fin 3] [Fin 0; Fin 2; Fin 1] (Some 3%Z))).
  reflexivity.
Defined.

(** ** Coordinate arrays of different lengths *)

Lemma broadcast_mismatch (op : float64 -> float64 -> float64)
  (a b : list float64) :
  length a <> length b -> 2 <= length a -> 2 <= length b ->
  np.broadcast op a b = Raise ValueError.
Proof.
  intros Hne Ha Hb. unfold np.broadcast.
  apply Nat.eqb_neq in Hne as ->.
  destruct a as [|a0 [|a1 a']]; simpl in Ha; try lia.
  destruct b as [|b0 [|b1 b']]; simpl in Hb; try lia.
  reflexivity.
Qed.

(** X2.  When [x] and [y] have different lengths, both at least 3, and
    the resolved [max_lag] is at least 1, [calculate_msd] ends in
    numpy's [ValueError]: at lag 1 the squared differences of [x] and
    of [y] have different lengths and cannot be added.  With a resolved
    [max_lag < 1] the loop is never entered and the call returns the
    empty series whatever the lengths. *)
Theorem X2_length_mismatch :
  forall (x y : list float64) (max_lag : option Z),
    ((resolve_max_lag x max_lag < 1)%Z ->
     calculate_msd x y max_lag = Ok ([], []))
    /\ (length x <> length y -> 3 <= length x -> 3 <= length y ->
        (1 <= resolve_max_lag x max_lag)%Z ->
        calculate_msd x y max_lag = Raise ValueError).
Proof.
  intros x y max_lag. split.
  - intros Hm. unfold calculate_msd. rewrite arange_from_1.
    replace (Z.to_nat (resolve_max_lag x max_lag)) with 0 by lia.
    reflexivity.
  - intros Hne Hx Hy Hm. unfold calculate_msd. rewrite arange_from_1.
    destruct (Z.to_nat (resolve_max_lag x max_lag)) as [|m] eqn:Em; [lia|].
    unfold lag_series. cbn [seq map msd_loop].
    unfold msd_at, np.subtract, np.add, np.square.
    rewrite !slice_from_lag, !slice_to_lag by lia.
    rewrite !broadcast_maps. cbn [bind].
    rewrite broadcast_mismatch; [reflexivity | | |];
      rewrite !length_map, !length_seq; lia.
Qed.

(** Three points against four, [max_lag] omitted (resolved to 1). *)
Lemma X2_witness :
  calculate_msd [Fin 0; Fin 1; Fin 2] [Fin 0; Fin 0; Fin 0; Fin 0] None
  = Raise ValueError.
Proof.
  apply (proj2 (X2_length_mismatch
                  [Fin 0; Fin 1; Fin 2] [Fin 0; Fin 0; Fin 0; Fin 0] None)).
  - simpl. lia.
  - simpl. lia.
  - simpl. lia.
  - change (resolve_max_lag _ None) with 1%Z. lia.
Defined.

(** ** The MSD of a lag does not depend on [max_lag] *)

(** X3.  On coordinate arrays of one length, raising [max_lag] only
    appends: the lags and MSD values returned for [max_lag = m] are the
    first [m] of those returned for any [max_lag = m' >= m]. *)
Theorem X3_max_lag_prefix :
  forall (x y : list float64) (m m' : Z),
    length x = length y ->
    (m <= m')%Z ->
    exists lags' msd',
      calculate_msd x y (Some m') = Ok (lags', msd')
      /\ calculate_msd x y (Some m)
         = Ok (firstn (Z.to_nat m) lags', firstn (Z.to_nat m) msd').
Proof.
  intros x y m m' Hxy Hm.
  rewrite !calculate_msd_eq by assumption.
  cbn [resolve_max_lag].
  do 2 eexists. split; [reflexivity|].
  unfold lag_series.
  rewrite !firstn_map, !firstn_seq_le by lia. reflexivity.
Qed.

Lemma X3_witness :
  exists lags' msd',
    calculate_msd [Fin 0; Fin 1; Fin 3] [Fin 0; Fin 2; Fin 1] (Some 2%Z)
    = Ok (lags', msd')
    /\ calculate_msd [Fin 0; Fin 1; Fin 3] [Fin 0; Fin 2; Fin 1] (Some 1%Z)
       = Ok (firstn (Z.to_nat 1) lags', firstn (Z.to_nat 1) msd').
Proof.
  apply X3_max_lag_prefix; [reflexivity | lia].
Defined.

(** ** Moving and scaling the trajectory *)

Lemma nth_map_in_range (f : R -> R) (l : list R) (i : nat) :
  i < length l -> nth i (map f l) 0%R = f (nth i l 0%R).
Proof.
  intros Hi.
  rewrite nth_indep with (d' := f 0%R) by (now rewrite length_map).
  apply map_nth.
Qed.

Lemma Rsum_scale (c : R) (f : nat -> R) (l : list nat) :
  Rsum (map (fun i => (c * f i)%R) l) = (c * Rsum (map f l))%R.
Proof.
  induction l as [|i l IH]; cbn [map].
  - unfold Rsum. simpl. ring.
  - rewrite !Rsum_cons, IH. ring.
Qed.

(** The window mean of a transformed trajectory, when the transformation
    [f] on [x] and [h] on [y] multiplies every squared displacement by
    [k]. *)
Lemma window_mean_R_transform (f h : R -> R) (k : R) (xs ys : list R) (L : nat) :
  length xs = length ys ->
  L < length xs ->
  (forall p q, ((f p - f q) * (f p - f q) = k * ((p - q) * (p - q)))%R) ->
  (forall p q, ((h p - h q) * (h p - h q) = k * ((p - q) * (p - q)))%R) ->
  window_mean_R (map f xs) (map h ys) L = (k * window_mean_R xs ys L)%R.
Proof.
  intros Hxy HL Hf Hh. unfold window_mean_R.
  rewrite length_map.
  rewrite map_ext_in
    with (g := fun i => (k * sq_displacement_R xs ys L i)%R).
  - rewrite Rsum_scale. unfold Rdiv. ring.
  - intros i Hi. apply in_seq in Hi. unfold sq_displacement_R.
    rewrite !nth_map_in_range by lia.
    rewrite Hf, Hh. ring.
Qed.

Lemma resolve_max_lag_length (x x' : list float64) (max_lag : option Z) :
  length x = length x' ->
  resolve_max_lag x max_lag = resolve_max_lag x' max_lag.
Proof.
  intros H. unfold resolve_max_lag. now rewrite H.
Qed.

(** [calculate_msd] on a transformed finite trajectory, for a
    transformation that multiplies squared displacements by [k]: every
    MSD value is multiplied by [k]. *)
Lemma calculate_msd_transform (f h : R -> R) (k : R) (xs ys : list R)
  (max_lag : option Z) :
  length xs = length ys ->
  (forall p q, ((f p - f q) * (f p - f q) = k * ((p - q) * (p - q)))%R) ->
  (forall p q, ((h p - h q) * (h p - h q) = k * ((p - q) * (p - q)))%R) ->
  let m := Z.to_nat (resolve_max_lag (map Fin xs) max_lag) in
  calculate_msd (map Fin (map f xs)) (map Fin (map h ys)) max_lag
  = Ok (lag_series m,
        map (fun L => fmul (Fin k) (window_mean (map Fin xs) (map Fin ys) L))
            (seq 1 m)).
Proof.
  intros Hxy Hf Hh m.
  rewrite calculate_msd_eq by (now rewrite !length_map).
  rewrite (resolve_max_lag_length _ (map Fin xs))
    by (now rewrite !length_map).
  fold m. do 2 f_equal.
  apply map_ext. intros L.
  destruct (Nat.lt_ge_cases L (length xs)) as [Hlt | Hge].
  - rewrite !window_mean_fin by (rewrite ?length_map; assumption).
    rewrite (window_mean_R_transform f h k) by assumption.
    reflexivity.
  - rewrite !window_mean_empty by (rewrite !length_map; assumption).
    reflexivity.
Qed.

Lemma fmul_one (v : float64) : fmul (Fin 1) v = v.
Proof.
  destruct v as [r | | |]; simpl; auto.
  - f_equal. ring.
  - destruct (Req_dec_T 1 0); [lra|]. destruct (Rlt_dec 0 1); [reflexivity | lra].
  - destruct (Req_dec_T 1 0); [lra|]. destruct (Rlt_dec 0 1); [reflexivity | lra].
Qed.

(** X4.  The MSD depends on displacements only: adding a constant [c]
    to every [x] coordinate and a constant [d] to every [y] coordinate
    of a finite trajectory changes nothing in what [calculate_msd]
    returns. *)
Theorem X4_translation_invariant :
  forall (xs ys : list R) (c d : R) (max_lag : option Z),
    length xs = length ys ->
    calculate_msd (map Fin (map (fun p => (p + c)%R) xs))
                  (map Fin (map (fun p => (p + d)%R) ys)) max_lag
    = calculate_msd (map Fin xs) (map Fin ys) max_lag.
Proof.
  intros xs ys c d max_lag Hxy.
  rewrite (calculate_msd_transform
             (fun p => (p + c)%R) (fun p => (p + d)%R) 1)
    by (assumption || (intros; ring)).
  rewrite calculate_msd_eq by (now rewrite !length_map).
  do 2 f_equal. apply map_ext. intros L. apply fmul_one.
Qed.

Lemma X4_witness :
  calculate_msd (map Fin (map (fun p => (p + 5)%R) [0; 1; 3]%R))
                (map Fin (map (fun p => (p + -2)%R) [0; 2; 1]%R)) None
  = calculate_msd (map Fin [0; 1; 3]%R) (map Fin [0; 2; 1]%R) None.
Proof.
  apply X4_translation_invariant. reflexivity.
Defined.

(** X5.  Multiplying every coordinate of a finite trajectory by [s]
    multiplies every MSD value by [s^2] and leaves the lags as they
    are (a NaN value, at a lag beyond the trajectory, stays NaN). *)
Theorem X5_scaling :
  forall (xs ys : list R) (s : R) (max_lag : option Z),
    length xs = length ys ->
    exists lags msd,
      calculate_msd (map Fin xs) (map Fin ys) max_lag = Ok (lags, msd)
      /\ calculate_msd (map Fin (map (fun p => (s * p)%R) xs))
                       (map Fin (map (fun p => (s * p)%R) ys)) max_lag
         = Ok (lags, map (fmul (Fin (s * s))) msd).
Proof.
  intros xs ys s max_lag Hxy.
  rewrite (calculate_msd_transform
             (fun p => (s * p)%R) (fun p => (s * p)%R) (s * s))
    by (assumption || (intros; ring)).
  rewrite calculate_msd_eq by (now rewrite !length_map).
  do 2 eexists. split; [reflexivity|].
  now rewrite map_map.
Qed.

Lemma X5_witness :
  exists lags msd,
    calculate_msd (map Fin [0; 1; 3]%R) (map Fin [0; 2; 1]%R) None
    = Ok (lags, msd)
    /\ calculate_msd (map Fin (map (fun p => (3 * p)%R) [0; 1; 3]%R))
                     (map Fin (map (fun p => (3 * p)%R) [0; 2; 1]%R)) None
       = Ok (lags, map (fmul (Fin (3 * 3))) msd).
Proof.
  apply X5_scaling. reflexivity.
Defined.

(** ** A walk at constant velocity *)

Lemma Rsum_const (f : nat -> R) (c : R) (l : list nat) :
  (forall i, In i l -> f i = c) ->
  Rsum (map f l) = (INR (length l) * c)%R.
Proof.
  induction l as [|i l IH]; intros Hf.
  - unfold Rsum. simpl. ring.
  - cbn [map length]. rewrite Rsum_cons, S_INR, IH.
    + rewrite (Hf i) by (simpl; auto). ring.
    + intros j Hj. apply Hf. simpl; auto.
Qed.

Lemma length_ballistic (a v : R) (n : nat) : length (ballistic a v n) = n.
Proof. unfold ballistic. now rewrite length_map, length_seq. Qed.

Lemma nth_ballistic (a v : R) (n i : nat) :
  i < n -> nth i (ballistic a v n) 0%R = (a + v * INR i)%R.
Proof.
  intros Hi. unfold ballistic. now rewrite nth_map_seq by assumption.
Qed.

(** At constant velocity [(v, w)] every displacement over [L] steps is
    [(v L, w L)], and so is their mean square. *)
Lemma window_mean_R_ballistic (a b v w : R) (n L : nat) :
  L < n ->
  window_mean_R (ballistic a v n) (ballistic b w n) L
  = ((v * v + w * w) * (INR L * INR L))%R.
Proof.
  intros HL. unfold window_mean_R. rewrite length_ballistic.
  rewrite Rsum_const with (c := ((v * v + w * w) * (INR L * INR L))%R).
  - rewrite length_seq. field. apply not_0_INR. lia.
  - intros i Hi. apply in_seq in Hi. unfold sq_displacement_R.
    rewrite !nth_ballistic by lia. rewrite plus_INR. ring.
Qed.

Lemma calculate_msd_ballistic (a b v w : R) (n : nat) (max_lag : option Z) :
  let m := resolve_max_lag (map Fin (ballistic a v n)) max_lag in
  (m < Z.of_nat n)%Z ->
  calculate_msd (map Fin (ballistic a v n)) (map Fin (ballistic b w n)) max_lag
  = Ok (lag_series (Z.to_nat m),
        map Fin (map (fun L => ((v * v + w * w) * (INR L * INR L))%R)
                     (seq 1 (Z.to_nat m)))).
Proof.
  intros m Hm.
  rewrite calculate_msd_eq
    by (now rewrite !length_map, !length_ballistic).
  fold m. do 2 f_equal. rewrite map_map.
  apply map_ext_in. intros L HL. apply in_seq in HL.
  rewrite window_mean_fin
    by (rewrite ?length_ballistic; (reflexivity || lia)).
  f_equal. apply window_mean_R_ballistic. lia.
Qed.

(** X6.  For a walk at constant velocity [(v, w)] from any starting
    point, of [n] steps, and a resolved [max_lag < n], [calculate_msd]
    returns at every lag [L] the value [(v^2 + w^2) * L^2]. *)
Theorem X6_ballistic_msd :
  forall (a b v w : R) (n : nat) (max_lag : option Z),
    let m := resolve_max_lag (map Fin (ballistic a v n)) max_lag in
    (m < Z.of_nat n)%Z ->
    calculate_msd (map Fin (ballistic a v n)) (map Fin (ballistic b w n))
                  max_lag
    = Ok (lag_series (Z.to_nat m),
          map Fin (map (fun L => ((v * v + w * w) * (INR L * INR L))%R)
                       (seq 1 (Z.to_nat m)))).
Proof.
  intros a b v w n max_lag. apply calculate_msd_ballistic.
Qed.

(** Five steps at velocity [(3, 4)] from [(1, 2)], lags 1 and 2. *)
Lemma X6_witness :
  calculate_msd (map Fin (ballistic 1 3 5)) (map Fin (ballistic 2 4 5))
                (Some 2%Z)
  = Ok (lag_series (Z.to_nat 2),
        map Fin (map (fun L => ((3 * 3 + 4 * 4) * (INR L * INR L))%R)
                     (seq 1 (Z.to_nat 2)))).
Proof.
  apply (X6_ballistic_msd 1 2 3 4 5 (Some 2%Z)). simpl. lia.
Defined.

(** ** The fitter on an exact power law *)

Lemma Rsum_zero (A : Type) (f : A -> R) (l : list A) :
  (forall a, In a l -> f a = 0%R) -> Rsum (map f l) = 0%R.
Proof.
  induction l as [|a l IH]; intros Hf; cbn [map].
  - reflexivity.
  - rewrite Rsum_cons. rewrite IH.
    + rewrite (Hf a) by (simpl; auto). ring.
    + intros t Ht. apply Hf. simpl; auto.
Qed.

Lemma sse_nonneg (xs ys : list R) (a b : R) : (0 <= sse xs ys a b)%R.
Proof.
  unfold sse. induction (combine xs ys) as [|p l IH]; cbn [map].
  - unfold Rsum. simpl. lra.
  - rewrite Rsum_cons.
    pose proof (Rle_0_sqr (snd p - (a * fst p + b))) as H.
    unfold Rsqr in H. lra.
Qed.

Lemma combine_maps (A : Type) (f h : A -> R) (l : list A) :
  combine (map f l) (map h l) = map (fun a => (f a, h a)) l.
Proof.
  induction l as [|a l IH]; simpl; [reflexivity | now rewrite IH].
Qed.

(** Points that lie on a line have that line as least-squares line. *)
Lemma least_squares_exact (A : Type) (f h : A -> R) (l : list A) (a b : R) :
  (forall t, In t l -> h t = (a * f t + b)%R) ->
  least_squares (map f l) (map h l) a b.
Proof.
  intros Hline a' b'.
  replace (sse (map f l) (map h l) a b) with 0%R; [apply sse_nonneg|].
  unfold sse. rewrite combine_maps, map_map. symmetry.
  apply Rsum_zero. intros t Ht. cbn [fst snd].
  rewrite (Hline t Ht). ring.
Qed.

Lemma ln_power_law (K alpha x : R) :
  (0 < K)%R -> (0 < x)%R ->
  ln (K * Rpower x alpha) = (alpha * ln x + ln K)%R.
Proof.
  intros HK Hx. unfold Rpower.
  rewrite ln_mult by (assumption || apply exp_pos).
  rewrite ln_exp. ring.
Qed.

Lemma fit_power_law (lags : list Z) (K alpha : R) (l1 l2 : Z) :
  (forall l, In l lags -> (1 <= l)%Z) ->
  In l1 lags -> In l2 lags -> l1 <> l2 ->
  (0 < K)%R ->
  calculate_diffusion_coefficient
    lags (map Fin (map (fun l => (K * Rpower (IZR l) alpha)%R) lags))
  = Ok (Fin (K / 4), Fin alpha, [Fin alpha; Fin (ln K)]).
Proof.
  intros Hl H1 H2 Hne HK.
  set (ms := map (fun l => (K * Rpower (IZR l) alpha)%R) lags).
  assert (Hms : forall m, In m ms -> (0 < m)%R).
  { intros m Hm. unfold ms in Hm. apply in_map_iff in Hm as (l & <- & Hin).
    apply Rmult_lt_0_compat; [assumption|]. unfold Rpower. apply exp_pos. }
  rewrite (calculate_diffusion_coefficient_fin lags ms l1 l2);
    [ | unfold ms; now rewrite length_map | assumption .. ].
  cbv zeta.
  set (xs := map (fun l => ln (IZR l)) lags).
  set (ys := map ln ms).
  assert (Hls : least_squares xs ys alpha (ln K)).
  { unfold xs, ys, ms. rewrite map_map.
    apply (least_squares_exact Z
             (fun l => ln (IZR l))
             (fun l => ln (K * Rpower (IZR l) alpha))).
    intros l Hin. apply ln_power_law; [assumption|].
    apply (IZR_lt 0). specialize (Hl l Hin). lia. }
  destruct (ols_least_squares xs ys (ln (IZR l1)) (ln (IZR l2)))
    as [_ Huniq].
  - unfold xs, ys, ms. now rewrite !length_map.
  - unfold xs. now apply (in_map (fun l => ln (IZR l))).
  - unfold xs. now apply (in_map (fun l => ln (IZR l))).
  - apply ln_lag_injective; auto.
  - destruct (Huniq alpha (ln K) Hls) as [<- <-].
    rewrite exp_ln by assumption. reflexivity.
Qed.

(** X7.  The fitter recovers an exact power law: for positive integer
    lags with at least two distinct values and the MSD series
    [K * lag^alpha] with [K > 0], it returns the slope [alpha], the
    intercept [log K] and the diffusion coefficient [K / 4]. *)
Theorem X7_power_law_recovered :
  forall (lags : list Z) (K alpha : R),
    (forall l, In l lags -> (1 <= l)%Z) ->
    (exists l1 l2, In l1 lags /\ In l2 lags /\ l1 <> l2) ->
    (0 < K)%R ->
    calculate_diffusion_coefficient
      lags (map Fin (map (fun l => (K * Rpower (IZR l) alpha)%R) lags))
    = Ok (Fin (K / 4), Fin alpha, [Fin alpha; Fin (ln K)]).
Proof.
  intros lags K alpha Hl (l1 & l2 & H1 & H2 & Hne) HK.
  now apply (fit_power_law lags K alpha l1 l2).
Qed.

(** Normal diffusion with coefficient 3: MSD [= 12 * lag]. *)
Lemma X7_witness :
  calculate_diffusion_coefficient
    [1; 2; 3]%Z (map Fin (map (fun l => (12 * Rpower (IZR l) 1)%R) [1; 2; 3]%Z))
  = Ok (Fin (12 / 4), Fin 1, [Fin 1; Fin (ln 12)]).
Proof.
  apply X7_power_law_recovered.
  - intros l [<- | [<- | [<- | []]]]; lia.
  - exists 1%Z, 2%Z. simpl. repeat split; auto. discriminate.
  - lra.
Defined.

(** ** The fitter on malformed input *)

(** X8.  With no lags at all, or with lags and MSD values of different
    lengths, the fitter ends in the [TypeError] of [np.polyfit]. *)
Theorem X8_fit_type_error :
  forall (lags : list Z) (msd : list float64),
    lags = [] \/ length lags <> length msd ->
    calculate_diffusion_coefficient lags msd = Raise TypeError.
Proof.
  intros lags msd H. unfold calculate_diffusion_coefficient, np.polyfit1.
  destruct lags as [|l lags]; [reflexivity|].
  destruct H as [H | H]; [discriminate|].
  cbn [np.asfloat np.log map].
  match goal with
  | |- context [(?p =? ?q)%nat] => destruct (p =? q) eqn:E
  end; [|reflexivity].
  exfalso. apply Nat.eqb_eq in E. apply H.
  unfold np.log in E. cbn [length] in *. now rewrite !length_map in E.
Qed.

Lemma X8_witness :
  calculate_diffusion_coefficient [1; 2]%Z [Fin 1] = Raise TypeError.
Proof.
  apply X8_fit_type_error. right. simpl. lia.
Defined.

(** ** From a walk at constant velocity to the fit *)

Lemma lag_series_from_2 (m : nat) :
  2 <= m -> In 1%Z (lag_series m) /\ In 2%Z (lag_series m).
Proof.
  intros Hm. unfold lag_series. split.
  - apply (in_map Z.of_nat _ 1). apply in_seq. lia.
  - apply (in_map Z.of_nat _ 2). apply in_seq. lia.
Qed.

Lemma lag_series_positive (m : nat) (l : Z) :
  In l (lag_series m) -> (1 <= l)%Z.
Proof.
  unfold lag_series. intros H.
  apply in_map_iff in H as (k & <- & Hk). apply in_seq in Hk. lia.
Qed.

Lemma Rpower_2 (x : R) : (0 < x)%R -> Rpower x 2 = (x * x)%R.
Proof.
  intros Hx. replace 2%R with (INR 2) by (simpl; lra).
  rewrite Rpower_pow by assumption. simpl. ring.
Qed.

(** X9.  The two functions composed on a walk at constant velocity
    [(v, w)], not both zero, of [n] steps with a resolved
    [2 <= max_lag < n]: the MSD series of [calculate_msd], given to the
    fitter, yields the slope 2 and the coefficient [(v^2 + w^2) / 4]. *)
Theorem X9_ballistic_fit :
  forall (a b v w : R) (n : nat) (max_lag : option Z),
    let m := resolve_max_lag (map Fin (ballistic a v n)) max_lag in
    (2 <= m < Z.of_nat n)%Z ->
    (0 < v * v + w * w)%R ->
    exists lags msd,
      calculate_msd (map Fin (ballistic a v n)) (map Fin (ballistic b w n))
                    max_lag
      = Ok (lags, msd)
      /\ calculate_diffusion_coefficient lags msd
         = Ok (Fin ((v * v + w * w) / 4), Fin 2,
               [Fin 2; Fin (ln (v * v + w * w))]).
Proof.
  intros a b v w n max_lag m Hm HK.
  rewrite calculate_msd_ballistic by (fold m; lia). fold m.
  do 2 eexists. split; [reflexivity|].
  destruct (lag_series_from_2 (Z.to_nat m)) as [H1 H2]; [lia|].
  rewrite <- (fit_power_law (lag_series (Z.to_nat m))
                (v * v + w * w) 2 1 2);
    [ | apply lag_series_positive | assumption | assumption
      | discriminate | assumption ].
  do 2 f_equal. unfold lag_series. rewrite map_map.
  apply map_ext_in. intros L HL. apply in_seq in HL.
  rewrite <- INR_IZR_INZ, Rpower_2 by (apply lt_0_INR; lia).
  reflexivity.
Qed.

Lemma X9_witness :
  exists lags msd,
    calculate_msd (map Fin (ballistic 1 3 5)) (map Fin (ballistic 2 4 5)) None
    = Ok (lags, msd)
    /\ calculate_diffusion_coefficient lags msd
       = Ok (Fin ((3 * 3 + 4 * 4) / 4), Fin 2,
             [Fin 2; Fin (ln (3 * 3 + 4 * 4))]).
Proof.
  apply (X9_ballistic_fit 1 2 3 4 5 None).
  - change (resolve_max_lag _ None) with 2%Z. simpl. lia.
  - lra.
Defined.

(** ** The line drawn over the MSD *)

Lemma polyval_line (a b : R) (xs : list R) :
  np.polyval [Fin a; Fin b] (map Fin xs)
  = map (fun x => Fin (a * x + b)) xs.
Proof.
  unfold np.polyval, np.zeros_like. cbn [fold_left].
  rewrite length_map.
  induction xs as [|x xs IH]; [reflexivity|].
  cbn [length repeat map combine fst snd fmul fadd].
  rewrite IH, Rmult_0_l, Rplus_0_l. reflexivity.
Qed.

Lemma fitted_line_fin (lags : list Z) (a b : R) :
  (forall l, In l lags -> (1 <= l)%Z) ->
  fitted_line lags [Fin a; Fin b]
  = map (fun l => Fin (exp b * Rpower (IZR l) a)) lags.
Proof.
  intros Hl. unfold fitted_line.
  rewrite log_lags by assumption.
  rewrite polyval_line. unfold np.exp_array. rewrite !map_map.
  apply map_ext. intros l. cbn [fexp]. f_equal.
  unfold Rpower. rewrite exp_plus. ring.
Qed.

(** X10.  The line that [plot_msd_loglog] draws from the coefficients
    of the fit is the power law of the results of the fit: for positive
    integer lags with at least two distinct values and as many strictly
    positive MSD values, its ordinate at the lag [l] is
    [4 * D * l^slope], with [D] and [slope] the diffusion coefficient
    and the slope that [calculate_diffusion_coefficient] returns. *)
Theorem X10_fitted_line_is_power_law :
  forall (lags : list Z) (ms : list R),
    length lags = length ms ->
    (forall l, In l lags -> (1 <= l)%Z) ->
    (forall m, In m ms -> (0 < m)%R) ->
    (exists l1 l2, In l1 lags /\ In l2 lags /\ l1 <> l2) ->
    exists D slope coeffs,
      calculate_diffusion_coefficient lags (map Fin ms)
      = Ok (Fin D, Fin slope, coeffs)
      /\ fitted_line lags coeffs
         = map (fun l => Fin (4 * D * Rpower (IZR l) slope)) lags.
Proof.
  intros lags ms Hlen Hl Hm (l1 & l2 & H1 & H2 & Hne).
  rewrite (calculate_diffusion_coefficient_fin lags ms l1 l2) by assumption.
  cbv zeta. do 3 eexists. split; [reflexivity|].
  rewrite fitted_line_fin by assumption.
  apply map_ext. intros l. f_equal. field.
Qed.

Lemma X10_witness :
  exists D slope coeffs,
    calculate_diffusion_coefficient [1; 2; 3]%Z (map Fin [2; 3; 7]%R)
    = Ok (Fin D, Fin slope, coeffs)
    /\ fitted_line [1; 2; 3]%Z coeffs
       = map (fun l => Fin (4 * D * Rpower (IZR l) slope)) [1; 2; 3]%Z.
Proof.
  apply X10_fitted_line_is_power_law.
  - reflexivity.
  - intros l [<- | [<- | [<- | []]]]; lia.
  - intros m [<- | [<- | [<- | []]]]; lra.
  - exists 1%Z, 2%Z. simpl. repeat split; auto. discriminate.
Defined.

(** ** The generated walk *)

Lemma Rsum_app (l l' : list R) : Rsum (l ++ l') = (Rsum l + Rsum l')%R.
Proof.
  induction l as [|r l IH].
  - change (Rsum ([] ++ l')) with (Rsum l').
    change (Rsum []) with 0%R. ring.
  - change (Rsum ((r :: l) ++ l')) with (r + Rsum (l ++ l'))%R.
    rewrite IH, Rsum_cons. ring.
Qed.

Lemma Rsum_prefix_step (f : nat -> R) (k : nat) :
  (Rsum (map f (seq 0 (S (S k)))) - Rsum (map f (seq 0 (S k))))%R = f (S k).
Proof.
  rewrite (seq_S (S k)), map_app, Rsum_app. cbn [map Nat.add].
  change (Rsum [f (S k)]) with (f (S k) + 0)%R. ring.
Qed.

(** The coordinates the generator returns, as reals: element [k] is the
    sum of the samples [a .. a + k] of the source. *)
Lemma walk_coords_fin (g : rng) (a n : nat) :
  np.cumsum (map Fin (map (fun i => (0 + 1 * g (a + i)%nat)%R) (seq 0 n)))
  = map Fin (map (fun k => Rsum (map (fun i => g (a + i)%nat) (seq 0 (S k))))
                 (seq 0 n)).
Proof.
  apply nth_ext with (d := NaN) (d' := NaN).
  - now rewrite length_cumsum, !length_map.
  - intros k Hk.
    rewrite length_cumsum, !length_map, length_seq in Hk.
    rewrite nth_cumsum by (now rewrite length_map, length_seq).
    rewrite Rsum_draws by assumption.
    rewrite nth_fin by (now rewrite length_map, length_seq).
    now rewrite nth_map_seq by assumption.
Qed.

Lemma generate_random_walk_fin (steps : Z) (g : rng) :
  (0 <= steps)%Z ->
  let n := Z.to_nat steps in
  generate_random_walk (Some steps) g
  = (Ok (map Fin (map (fun k => Rsum (map (fun i => g (0 + i)%nat)
                                          (seq 0 (S k)))) (seq 0 n)),
         map Fin (map (fun k => Rsum (map (fun i => g (n + i)%nat)
                                          (seq 0 (S k)))) (seq 0 n))),
     fun i => g (n + (n + i))%nat).
Proof.
  intros Hs n. rewrite generate_random_walk_eq by assumption. fold n.
  now rewrite !walk_coords_fin.
Qed.

(** X11.  The increments can be read back from the walk: for
    [steps >= 0] the difference of consecutive [x] coordinates [k] and
    [k + 1] is sample [k + 1] of the source and that of the [y]
    coordinates is sample [steps + k + 1]; and the call leaves the
    source advanced by exactly [2 * steps] samples. *)
Theorem X11_increments_read_back :
  forall (steps : Z) (g : rng),
    (0 <= steps)%Z ->
    let n := Z.to_nat steps in
    exists x y g',
      generate_random_walk (Some steps) g = (Ok (x, y), g')
      /\ (forall i, g' i = g (2 * n + i))
      /\ forall k, k + 1 < n ->
           fsub (nth (k + 1) x NaN) (nth k x NaN) = Fin (g (k + 1))
           /\ fsub (nth (k + 1) y NaN) (nth k y NaN) = Fin (g (n + (k + 1))).
Proof.
  intros steps g Hs n.
  rewrite generate_random_walk_fin by assumption. fold n.
  do 3 eexists. split; [reflexivity|]. split.
  - intros i. f_equal. lia.
  - intros k Hk.
    rewrite !nth_fin by (rewrite length_map, length_seq; lia).
    rewrite !nth_map_seq by lia.
    cbn [fsub Nat.add].
    replace (k + 1) with (S k) by lia.
    rewrite !Rsum_prefix_step. split; reflexivity.
Qed.

Lemma X11_witness :
  exists x y g',
    generate_random_walk (Some 3%Z) (fun i => INR i) = (Ok (x, y), g')
    /\ (forall i, g' i = INR (2 * 3 + i))
    /\ forall k, k + 1 < 3 ->
         fsub (nth (k + 1) x NaN) (nth k x NaN) = Fin (INR (k + 1))
         /\ fsub (nth (k + 1) y NaN) (nth k y NaN) = Fin (INR (3 + (k + 1))).
Proof.
  apply (X11_increments_read_back 3 (fun i => INR i)). lia.
Defined.

(** ** From the generator to the MSD *)

(** X12.  The generator and the estimator composed: for a walk of
    [steps >= 2] and a resolved [max_lag >= 1], the MSD at lag 1 is the
    mean squared length of the increments number 2 to [steps] (the
    first increment, which only places the first point, does not
    count). *)
Theorem X12_walk_msd_at_lag_one :
  forall (steps : Z) (g : rng) (max_lag : option Z),
    (2 <= steps)%Z ->
    (1 <= match max_lag with Some m => m | None => steps / 2 end)%Z ->
    let n := Z.to_nat steps in
    exists x y g' lags msd,
      generate_random_walk (Some steps) g = (Ok (x, y), g')
      /\ calculate_msd x y max_lag = Ok (lags, msd)
      /\ nth 0 msd NaN
         = Fin (Rsum (map (fun k => (g k * g k + g (n + k)%nat * g (n + k)%nat)%R)
                          (seq 1 (n - 1)))
                / INR (n - 1)).
Proof.
  intros steps g max_lag Hs Hm n.
  rewrite generate_random_walk_fin by lia. fold n.
  set (F := fun a k => Rsum (map (fun i => g (a + i)) (seq 0 (S k)))).
  change (map (fun k => Rsum (map (fun i => g (0 + i)) (seq 0 (S k)))) (seq 0 n))
    with (map (F 0) (seq 0 n)).
  change (map (fun k => Rsum (map (fun i => g (n + i)) (seq 0 (S k)))) (seq 0 n))
    with (map (F n) (seq 0 n)).
  set (xs := map (F 0) (seq 0 n)). set (ys := map (F n) (seq 0 n)).
  assert (Lx : length xs = n) by (unfold xs; now rewrite length_map, length_seq).
  assert (Ly : length ys = n) by (unfold ys; now rewrite length_map, length_seq).
  do 5 eexists. split; [reflexivity|].
  rewrite calculate_msd_eq by (rewrite !length_map; congruence).
  split; [reflexivity|].
  assert (Hres : (1 <= resolve_max_lag (map Fin xs) max_lag)%Z).
  { unfold resolve_max_lag. destruct max_lag as [m|]; [assumption|].
    rewrite length_map, Lx. unfold n. rewrite Z2Nat.id by lia. exact Hm. }
  rewrite nth_map_seq by lia. cbn [Nat.add].
  rewrite window_mean_fin by lia.
  f_equal. unfold window_mean_R. rewrite Lx. f_equal.
  rewrite <- seq_shift, map_map. f_equal.
  apply map_ext_in. intros i Hi. apply in_seq in Hi.
  unfold sq_displacement_R, xs, ys.
  rewrite !nth_map_seq by lia. cbn [Nat.add].
  replace (i + 1) with (S i) by lia.
  unfold F. rewrite !Rsum_prefix_step. cbn [Nat.add]. reflexivity.
Qed.

Lemma X12_witness :
  exists x y g' lags msd,
    generate_random_walk (Some 4%Z) (fun i => INR i) = (Ok (x, y), g')
    /\ calculate_msd x y None = Ok (lags, msd)
    /\ nth 0 msd NaN
       = Fin (Rsum (map (fun k => (INR k * INR k
                                   + INR (Z.to_nat 4 + k)%nat
                                     * INR (Z.to_nat 4 + k)%nat)%R)
                        (seq 1 (Z.to_nat 4 - 1)))
              / INR (Z.to_nat 4 - 1)).
Proof.
  apply (X12_walk_msd_at_lag_one 4 (fun i => INR i) None).
  - lia.
  - change (4 / 2)%Z with 2%Z. lia.
Defined.

(** ** The program as a whole *)

Lemma fit_no_lags (msd : list float64) :
  calculate_diffusion_coefficient [] msd = Raise TypeError.
Proof. reflexivity. Qed.

Lemma fit_lag_one (v : float64) :
  calculate_diffusion_coefficient [1%Z] [v] = Raise LinAlgError.
Proof.
  unfold calculate_diffusion_coefficient.
  rewrite log_lags by (intros l [<- | []]; lia).
  cbn [map np.log]. rewrite ln_1.
  unfold np.polyfit1. cbn [length Nat.eqb negb np.finite].
  destruct (Req_dec_T (Rdot [0%R] [0%R]) 0) as [_ | N]; [reflexivity|].
  exfalso. apply N. unfold Rdot, Rsum. simpl. ring.
Qed.

(** With positive lags, one of them at least 2, and as many MSD values
    of any kind, the fitter returns. *)
Lemma fit_returns (lags : list Z) (msd : list float64) (l : Z) :
  length lags = length msd ->
  (forall k, In k lags -> (1 <= k)%Z) ->
  In l lags -> (2 <= l)%Z ->
  exists r, calculate_diffusion_coefficient lags msd = Ok r.
Proof.
  intros Hlen Hl Hin Hl2.
  unfold calculate_diffusion_coefficient.
  rewrite log_lags by assumption.
  set (xs := map (fun k => ln (IZR k)) lags).
  assert (Hx : In (ln (IZR l)) xs).
  { unfold xs. now apply (in_map (fun k => ln (IZR k))). }
  assert (Hpos : (0 < ln (IZR l))%R).
  { rewrite <- ln_1. apply ln_increasing; [lra|]. apply (IZR_lt 1). lia. }
  pose proof (Rdot_self_pos xs _ Hx (Rgt_not_eq _ _ Hpos)) as Hdot.
  unfold np.polyfit1.
  destruct (map Fin xs) as [|v t] eqn:Ex.
  { destruct xs; [contradiction | discriminate]. }
  rewrite <- Ex. clear v t Ex.
  assert (El : length (map Fin xs) = length (np.log msd)).
  { unfold xs, np.log. now rewrite !length_map. }
  rewrite El, Nat.eqb_refl. cbn [negb].
  rewrite finite_fin.
  destruct (Req_dec_T (Rdot xs xs) 0) as [E | _]; [lra|].
  destruct (np.finite (np.log msd)) as [ys|].
  - destruct (Req_dec_T (ols_den xs) 0);
      cbn [bind]; rewrite fit_result; eexists; reflexivity.
  - cbn [bind]. rewrite fit_result. eexists; reflexivity.
Qed.

Lemma getitem_ends (a : list float64) :
  1 <= length a ->
  np.getitem a 0 = Ok (nth 0 a NaN)
  /\ np.getitem a (-1) = Ok (nth (length a - 1) a NaN).
Proof.
  intros Ha. unfold np.getitem, np.index. split.
  - replace (0 <? Z.of_nat (length a))%Z with true
      by (symmetry; apply Z.ltb_lt; lia).
    reflexivity.
  - replace (-1 <? Z.of_nat (length a))%Z with true
      by (symmetry; apply Z.ltb_lt; lia).
    replace (- Z.of_nat (length a) <=? -1)%Z with true
      by (symmetry; apply Z.leb_le; lia).
    cbn [Z.leb Z.compare andb Z.ltb bind]. do 2 f_equal. lia.
Qed.

(** The program once a walk of at least one step is drawn: the end
    points are there, and what remains is the fit of the MSD series of
    the walk, with [floor(steps / 2)] lags. *)
Lemma main_eq (steps : Z) (g : rng) :
  (1 <= steps)%Z ->
  let m := Z.to_nat (steps / 2) in
  exists msd,
    length msd = m
    /\ fst (main steps g) = calculate_diffusion_coefficient (lag_series m) msd.
Proof.
  intros Hs m. unfold main, bindPy.
  rewrite generate_random_walk_eq by lia.
  cbn [fst snd lift].
  set (x := np.cumsum _). set (y := np.cumsum _).
  assert (Lx : length x = Z.to_nat steps).
  { unfold x. now rewrite length_cumsum, !length_map, length_seq. }
  assert (Ly : length y = Z.to_nat steps).
  { unfold y. now rewrite length_cumsum, !length_map, length_seq. }
  destruct (getitem_ends x) as [-> ->]; [lia|].
  destruct (getitem_ends y) as [-> ->]; [lia|].
  cbn [bind].
  rewrite calculate_msd_eq by congruence.
  unfold resolve_max_lag. rewrite Lx, Z2Nat.id by lia.
  fold m. cbn [fst snd].
  eexists. split; [|reflexivity].
  now rewrite length_map, length_seq.
Qed.

(** X13.  Run with fewer than 4 steps the program always ends in an
    exception, whatever the samples drawn: [ValueError] for a negative
    count (nothing can be drawn), [IndexError] for 0 steps (the walk
    has no first point), [TypeError] for 1 step (there is no lag to
    fit), [LinAlgError] for 2 or 3 steps (the single lag 1 does not
    determine a line). *)
Theorem X13_short_walks_raise :
  forall (steps : Z) (g : rng),
    ((steps < 0)%Z -> fst (main steps g) = Raise ValueError)
    /\ (steps = 0%Z -> fst (main steps g) = Raise IndexError)
    /\ (steps = 1%Z -> fst (main steps g) = Raise TypeError)
    /\ ((2 <= steps <= 3)%Z -> fst (main steps g) = Raise LinAlgError).
Proof.
  intros steps g. split; [|split; [|split]].
  - intros Hs. unfold main, bindPy, generate_random_walk, bindPy.
    now rewrite normal_negative.
  - intros ->. unfold main, bindPy.
    rewrite generate_random_walk_eq by lia. reflexivity.
  - intros ->.
    destruct (main_eq 1 g) as (msd & Hlen & ->); [lia|].
    apply fit_no_lags.
  - intros Hs.
    destruct (main_eq steps g) as (msd & Hlen & ->); [lia|].
    replace (Z.to_nat (steps / 2)) with 1 in *.
    + destruct msd as [|v [|w msd]]; try discriminate Hlen.
      apply fit_lag_one.
    + assert (steps = 2 \/ steps = 3)%Z as [-> | ->] by lia; reflexivity.
Qed.

Lemma X13_witness :
  fst (main 3 (fun i => INR i)) = Raise LinAlgError.
Proof.
  apply (proj2 (proj2 (proj2 (X13_short_walks_raise 3 (fun i => INR i))))).
  lia.
Defined.

(** X14.  Run with 4 steps or more the computation of the program (the
    walk, its end points, the MSD, the fit) never ends in an exception,
    whatever the samples drawn: the fit returns a coefficient, a slope
    and the coefficients of the line (NaN ones when some MSD value is
    zero). *)
Theorem X14_long_walks_return :
  forall (steps : Z) (g : rng),
    (4 <= steps)%Z ->
    exists D slope coeffs, fst (main steps g) = Ok (D, slope, coeffs).
Proof.
  intros steps g Hs.
  destruct (main_eq steps g) as (msd & Hlen & ->); [lia|].
  assert (Hm : 2 <= Z.to_nat (steps / 2)).
  { assert (2 <= steps / 2)%Z by (apply Z.div_le_lower_bound; lia). lia. }
  destruct (lag_series_from_2 _ Hm) as [_ H2].
  destruct (fit_returns (lag_series (Z.to_nat (steps / 2))) msd 2)
    as ([[D slope] coeffs] & E).
  - now rewrite length_lag_series.
  - apply lag_series_positive.
  - exact H2.
  - lia.
  - now exists D, slope, coeffs.
Qed.

Lemma X14_witness :
  exists D slope coeffs,
    fst (main 4 (fun i => INR i)) = Ok (D, slope, coeffs).
Proof.
  apply X14_long_walks_return. lia.
Defined.
